(** * go-benfords: Benford's law in an arbitrary base

    A shallow embedding of [benfords.go] and the properties of it that the
    specification states.

    - [Int]: Go's [int] (64 bits), as [Z] with the wrap-around written out.
    - [F64]: Go's [float64], as the IEEE 754 binary64 values and operations of
      the Standard Library's [SpecFloat] (round to nearest, ties to even),
      with the conversions from and to [int].
    - [Digits]: [LeadDigit] and [ComputeLeadDigitDistribution], over [F64].
    - [Benford]: the distribution ([Prob], [LogProb], [CDF], [FullPDF],
      [Domain]) and the goodness-of-fit entry points, read over the real
      numbers: [math.Log] is the real logarithm and the arithmetic on finite
      values is exact. This reading fixes the formulas, the branches, the
      lengths and the panics.
    - [Benford64]: [Prob], [CDF], [FullPDF], [FullCDF] and [Rand] as the
      code computes them, over [F64], for what depends on each rounded
      sum. [math.Log] is not part of the package and is a parameter. *)

From Stdlib Require Import ZArith List Bool String Lia.
From Stdlib Require Import Reals Lra.
From Stdlib Require Import Floats.SpecFloat.
Import ListNotations.

(** ** Outcomes of a call

    A Go call returns, panics, or (in the model, where loops carry fuel)
    runs out of fuel. *)

Inductive result (A : Type) : Type :=
| Ok (a : A)
| Panic (msg : string)
| OutOfFuel.

Arguments Ok {A} a.
Arguments Panic {A} msg.
Arguments OutOfFuel {A}.

Definition bind {A B : Type} (r : result A) (k : A -> result B) : result B :=
  match r with
  | Ok a => k a
  | Panic msg => Panic msg
  | OutOfFuel => OutOfFuel
  end.

Notation "x <- r ;; k" := (bind r (fun x => k))
  (at level 61, r at next level, right associativity).

(** ** Go's [int] on a 64-bit platform *)

Module Int.
Open Scope Z_scope.

Definition min_int : Z := - 2 ^ 63.
Definition max_int : Z := 2 ^ 63 - 1.

(** Two's complement wrap-around of an arithmetic result. *)
Definition wrap (z : Z) : Z := (z + 2 ^ 63) mod 2 ^ 64 - 2 ^ 63.

Definition in_range (z : Z) : Prop := min_int <= z <= max_int.

Definition in_rangeb (z : Z) : bool := (min_int <=? z) && (z <=? max_int).

Definition sub (a b : Z) : Z := wrap (a - b).
Definition add (a b : Z) : Z := wrap (a + b).

(** [a / b]: truncated division; a zero divisor panics. *)
Definition quot (a b : Z) : result Z :=
  if b =? 0 then Panic "integer divide by zero" else Ok (wrap (Z.quot a b)).

End Int.

(** ** Go's [float64] *)

Module F64.
Open Scope Z_scope.

Definition prec : Z := 53.
Definition emax : Z := 1024.

Definition float64 : Type := spec_float.

Definition zero : float64 := S754_zero false.
Definition nan : float64 := S754_nan.
Definition inf : float64 := S754_infinity false.

(** [float64(z)] for an [int] [z]: the nearest binary64 value. *)
Definition of_int (z : Z) : float64 := binary_normalize prec emax z 0 false.

Definition one : float64 := Eval vm_compute in of_int 1.

Definition neg (x : float64) : float64 := SFopp x.
Definition add (x y : float64) : float64 := SFadd prec emax x y.
Definition mul (x y : float64) : float64 := SFmul prec emax x y.
Definition div (x y : float64) : float64 := SFdiv prec emax x y.
Definition ltb (x y : float64) : bool := SFltb x y.
Definition eqb (x y : float64) : bool := SFeqb x y.

(** [x != y] *)
Definition neqb (x y : float64) : bool := negb (eqb x y).

(** [math.IsNaN(x)], which is [x != x]. *)
Definition IsNaN (x : float64) : bool := neqb x x.

(** A value of the type: finite values are canonical and bounded. *)
Definition valid (x : float64) : Prop := valid_binary prec emax x = true.

Definition finite_nonzero (x : float64) : Prop :=
  match x with S754_finite _ _ _ => True | _ => False end.

(** The magnitude of [m * 2^e]: the [k] with [2^(k-1) <= m * 2^e < 2^k]. *)
Definition mag (m : positive) (e : Z) : Z := Z.pos (digits2_pos m) + e.

(** [m * 2^e] is the one representation the format keeps for its value. *)
Definition canonical (m : positive) (e : Z) : Prop :=
  canonical_mantissa prec emax m e = true.

(** A finite value below [2^63] in magnitude. *)
Definition fits_int (x : float64) : Prop :=
  match x with
  | S754_finite _ m e => mag m e <= 63
  | S754_zero _ => True
  | _ => False
  end.

(** The integer part of a finite value, towards zero. *)
Definition trunc (x : float64) : option Z :=
  match x with
  | S754_zero _ => Some 0
  | S754_finite s m e =>
      let a := if 0 <=? e then Z.pos m * 2 ^ e else Z.pos m / 2 ^ (- e) in
      Some (if s then - a else a)
  | _ => None
  end.

(** [int(x)]. Where the integer part does not fit an [int] (or [x] is an
    infinity or a NaN) Go leaves the result to the implementation: [oor] is
    that choice, wrapped into the type. *)
Definition to_int (oor : float64 -> Z) (x : float64) : Z :=
  match trunc x with
  | Some z => if Int.in_rangeb z then z else Int.wrap (oor x)
  | None => Int.wrap (oor x)
  end.

(** amd64: the conversion instruction yields the "integer indefinite"
    value, the smallest [int]. *)
Definition oor_amd64 (x : float64) : Z := Int.min_int.

(** arm64: the conversion saturates, and a NaN gives 0. *)
Definition oor_arm64 (x : float64) : Z :=
  match x with
  | S754_nan => 0
  | S754_infinity s | S754_finite s _ _ | S754_zero s =>
      if s then Int.min_int else Int.max_int
  end.

End F64.

(** ** The digit extractor and the distribution builder *)

Module Digits.
Import F64.
Open Scope Z_scope.

Section Conversion.

(** What [int(x)] gives out of range, see [F64.to_int]. *)
Variable oor : float64 -> Z.

(** [for n < 1 { n = float64(base) * n }] *)
Fixpoint mul_up (fuel : nat) (b n : float64) : result float64 :=
  if ltb n one then
    match fuel with
    | O => OutOfFuel
    | S fuel' => mul_up fuel' b (mul b n)
    end
  else Ok n.

(** [for resid >= base { resid = resid / base }] *)
Fixpoint div_down (fuel : nat) (base resid : Z) : result Z :=
  if base <=? resid then
    match fuel with
    | O => OutOfFuel
    | S fuel' => r <- Int.quot resid base ;; div_down fuel' base r
    end
  else Ok resid.

Definition LeadDigit (fuel : nat) (n : float64) (base : Z) : result Z :=
  let n := if ltb n zero then neg n else n in
  n <- (if ltb n one then mul_up fuel (of_int base) n else Ok n) ;;
  let resid := to_int oor n in
  div_down fuel base resid.

(** [make([]float64, n)] *)
Definition make_floats (n : Z) : result (list float64) :=
  if n <? 0 then Panic "makeslice: len out of range"
  else Ok (repeat zero (Z.to_nat n)).

(** [dist[i]++] *)
Fixpoint incr_at (dist : list float64) (i : nat) : option (list float64) :=
  match dist, i with
  | [], _ => None
  | v :: rest, O => Some (add v one :: rest)
  | v :: rest, S i' =>
      match incr_at rest i' with
      | Some rest' => Some (v :: rest')
      | None => None
      end
  end.

Definition incr (dist : list float64) (i : Z) : result (list float64) :=
  if (i <? 0) || (Z.of_nat (List.length dist) <=? i) then Panic "index out of range"
  else match incr_at dist (Z.to_nat i) with
       | Some dist' => Ok dist'
       | None => Panic "index out of range"
       end.

(** [v != 0.0 && !math.IsNaN(v)] *)
Definition usable (v : float64) : bool := neqb v zero && negb (IsNaN v).

(** The first loop of [ComputeLeadDigitDistribution]: the state is
    [(validValues, dist)]. *)
Fixpoint tally (fuel : nat) (base : Z) (values : list float64)
    (st : float64 * list float64) : result (float64 * list float64) :=
  match values with
  | [] => Ok st
  | v :: rest =>
      let '(validValues, dist) := st in
      if usable v then
        leadDigit <- LeadDigit fuel v base ;;
        dist' <- incr dist (Int.sub leadDigit 1) ;;
        tally fuel base rest (add validValues one, dist')
      else tally fuel base rest st
  end.

Definition ComputeLeadDigitDistribution (fuel : nat)
    (values : list float64) (base : Z) : result (list float64 * Z) :=
  dist <- make_floats (Int.sub base 1) ;;
  st <- tally fuel base values (zero, dist) ;;
  let '(validValues, dist) := st in
  Ok (map (fun v => div v validValues) dist, to_int oor validValues).

End Conversion.

Section FromStrings.

Variable oor : float64 -> Z.

(** [strconv.ParseFloat(v, 64)], which is not part of this package: the
    value, and whether [err == nil]. *)
Variable ParseFloat : string -> float64 * bool.

(** [numericValues[i] = v] *)
Fixpoint store_at (l : list float64) (i : nat) (v : float64) :
    option (list float64) :=
  match l, i with
  | [], _ => None
  | _ :: rest, O => Some (v :: rest)
  | x :: rest, S i' =>
      match store_at rest i' v with
      | Some rest' => Some (x :: rest')
      | None => None
      end
  end.

Definition store (l : list float64) (i : Z) (v : float64) :
    result (list float64) :=
  if (i <? 0) || (Z.of_nat (List.length l) <=? i) then Panic "index out of range"
  else match store_at l (Z.to_nat i) v with
       | Some l' => Ok l'
       | None => Panic "index out of range"
       end.

(** The loop of [ComputeLeadDigitDistributionFromStrings]: the state is
    [(numericValues, count)]. *)
Fixpoint collect (strings : list string) (st : list float64 * Z) :
    result (list float64 * Z) :=
  match strings with
  | [] => Ok st
  | v :: rest =>
      let '(numericValues, count) := st in
      let '(asFloat, err_nil) := ParseFloat v in
      if err_nil && neqb asFloat zero && negb (IsNaN asFloat) then
        numericValues' <- store numericValues count asFloat ;;
        collect rest (numericValues', Int.add count 1)
      else collect rest st
  end.

(** [l[0:count]] *)
Definition slice_to (l : list float64) (count : Z) : result (list float64) :=
  if (count <? 0) || (Z.of_nat (List.length l) <? count)
  then Panic "slice bounds out of range"
  else Ok (firstn (Z.to_nat count) l).

Definition ComputeLeadDigitDistributionFromStrings (fuel : nat)
    (strings : list string) (base : Z) : result (list float64 * Z) :=
  let numericValues := repeat zero (List.length strings) in
  st <- collect strings (numericValues, 0) ;;
  let '(numericValues, count) := st in
  vs <- slice_to numericValues count ;;
  ComputeLeadDigitDistribution oor fuel vs base.

End FromStrings.

End Digits.

(** ** The Benford model and the goodness-of-fit entry points

    Read over the real numbers. No operation of [Prob] can leave the finite
    values: it divides by [x >= 1] and by the logarithm of [Base >= 2] only.
    The values that are not real numbers appear where the code makes them:
    [math.Inf(-1)] in [LogProb] and [math.Sqrt] of a negative number. *)

Module Benford.
Open Scope Z_scope.

Inductive value : Type :=
| Fin (r : R)
| NegInf
| NaN.

(** [type Benfords struct { Base int; Src rand.Source }]. The source of
    randomness is used by [Rand] only, for one uniform draw, which the model
    takes as an argument. *)
Record Benfords : Type := { Base : Z }.

(** [math.Log] at a positive argument. *)
Definition Log (x : R) : R := ln x.

(** [math.Sqrt] *)
Definition Sqrt (x : R) : value :=
  if Rlt_dec x 0 then NaN else Fin (sqrt x).

Definition Prob (b : Benfords) (x : Z) : R :=
  if x <? 1 then 0%R
  else if Int.sub (Base b) 1 <? x then 0%R
  else (Log (1 + 1 / IZR x) / Log (IZR (Base b)))%R.

Definition LogProb (b : Benfords) (x : Z) : value :=
  if (x <? 1) || (Int.sub (Base b) 1 <? x) then NegInf
  else
    let p := Prob b x in
    if Req_dec_T p 0 then NegInf else Fin p.

(** [for i := lo; i < hi; i++ { s = body(i, s) }], started at [i = lo] with
    the [steps] rounds it makes: the number of [i] from [lo] below [hi]. *)
Fixpoint for_loop {S : Type} (steps : nat) (i : Z) (body : Z -> S -> S)
    (s : S) : S :=
  match steps with
  | O => s
  | Datatypes.S steps' => for_loop steps' (Int.add i 1) body (body i s)
  end.

Definition CDF (b : Benfords) (x : Z) : R :=
  if x <? 1 then 0%R
  else if Int.sub (Base b) 1 <? x then 1%R
  else for_loop (Z.to_nat (Base b - 1)) 1
         (fun i tot => (tot + Prob b i)%R) 0%R.

Definition NumParameters (b : Benfords) : Z := 1.

(** [make([]T, n)]: the length. *)
Definition make_len (n : Z) : result nat :=
  if n <? 0 then Panic "makeslice: len out of range" else Ok (Z.to_nat n).

(** [for i := range res { res[i] = b.Prob(i + 1) }] *)
Definition FullPDF (b : Benfords) : result (list R) :=
  n <- make_len (Int.sub (Base b) 1) ;;
  Ok (map (fun i => Prob b (Int.add (Z.of_nat i) 1)) (seq 0 n)).

Definition Domain (b : Benfords) : result (list Z) :=
  n <- make_len (Int.sub (Base b) 1) ;;
  Ok (map (fun i => Int.add (Z.of_nat i) 1) (seq 0 n)).

(** [domain[i]] *)
Definition index {A : Type} (l : list A) (i : nat) : result A :=
  match nth_error l i with
  | Some a => Ok a
  | None => Panic "index out of range"
  end.

(** [for i, r := range realisedDist { s = body(s, r, idealPDF[i]) }] *)
Fixpoint over_bins {S : Type} (body : S -> R -> R -> S)
    (realisedDist idealPDF : list R) (s : S) : result S :=
  match realisedDist with
  | [] => Ok s
  | r :: rest =>
      match idealPDF with
      | [] => Panic "index out of range"
      | q :: ideal' => over_bins body rest ideal' (body s r q)
      end
  end.

Definition ChoGainesStat (b : Benfords) (nSamples : Z)
    (realisedDist : list R) : result value :=
  idealPDF <- FullPDF b ;;
  if negb (Nat.eqb (List.length idealPDF) (List.length realisedDist))
  then Panic "length mismatch"
  else
    totDiff <- over_bins (fun totDiff r q => (totDiff + (r - q) ^ 2)%R)
                 realisedDist idealPDF 0%R ;;
    Ok (Sqrt (IZR nSamples * totDiff)).

Definition LeemisStat (b : Benfords) (nSamples : Z)
    (realisedDist : list R) : result value :=
  idealPDF <- FullPDF b ;;
  if negb (Nat.eqb (List.length idealPDF) (List.length realisedDist))
  then Panic "length mismatch"
  else
    maxDiff <- over_bins (fun maxDiff r q => Rmax maxDiff (Rabs (r - q)))
                 realisedDist idealPDF 0%R ;;
    match Sqrt (IZR nSamples) with
    | Fin s => Ok (Fin (s * maxDiff))
    | v => Ok v
    end.

Section ChiSquare.

(** gonum's [stat.ChiSquare], which is not part of this package. *)
Variable stat_ChiSquare : list R -> list R -> result value.

Definition ChiSquarePValue (b : Benfords) (dist : list R) : result value :=
  if negb (Z.of_nat (List.length dist) =? Int.sub (Base b) 1)
  then Panic "distribution has unexpected length"
  else
    idealPDF <- FullPDF b ;;
    stat_ChiSquare idealPDF dist.

End ChiSquare.

End Benford.

(** ** The distribution in [float64]

    [Prob], [CDF], [FullPDF], [FullCDF] and [Rand] with the arithmetic of
    the code: every sum and quotient is a rounded [float64] operation.
    [math.Log] belongs to Go's library, not to this package, and is a
    parameter: what is proved here holds whatever it returns. *)

Module Benford64.
Import F64.
Open Scope Z_scope.

Section MathLog.

(** [math.Log] *)
Variable Log : float64 -> float64.

Definition Prob (b : Benford.Benfords) (x : Z) : float64 :=
  if x <? 1 then zero
  else if Int.sub (Benford.Base b) 1 <? x then zero
  else div (Log (add one (div one (of_int x))))
           (Log (of_int (Benford.Base b))).

Definition CDF (b : Benford.Benfords) (x : Z) : float64 :=
  if x <? 1 then zero
  else if Int.sub (Benford.Base b) 1 <? x then one
  else Benford.for_loop (Z.to_nat (Benford.Base b - 1)) 1
         (fun i tot => add tot (Prob b i)) zero.

(** [for i := range res { res[i] = b.Prob(i + 1) }] *)
Definition FullPDF (b : Benford.Benfords) : result (list float64) :=
  n <- Benford.make_len (Int.sub (Benford.Base b) 1) ;;
  Ok (map (fun i => Prob b (Int.add (Z.of_nat i) 1)) (seq 0 n)).

(** The loop of [FullCDF] from index [i] on, [n] entries left. *)
Fixpoint running (b : Benford.Benfords) (n i : nat) (runningTotal : float64)
    : list float64 :=
  match n with
  | O => []
  | S n' =>
      let runningTotal := add runningTotal (Prob b (Int.add (Z.of_nat i) 1)) in
      runningTotal :: running b n' (S i) runningTotal
  end.

Definition FullCDF (b : Benford.Benfords) : result (list float64) :=
  n <- Benford.make_len (Int.sub (Benford.Base b) 1) ;;
  Ok (running b n 0 zero).

(** [for i, v := range cdf { if p < v { return domain[i] } }]: the index at
    which the loop returns, if it does. *)
Fixpoint first_above (p : float64) (cdf : list float64) (i : nat)
    : option nat :=
  match cdf with
  | [] => None
  | v :: rest => if ltb p v then Some i else first_above p rest (S i)
  end.

(** [Rand], given the uniform draw [p := runif()]. *)
Definition Rand (b : Benford.Benfords) (p : float64) : result Z :=
  cdf <- FullCDF b ;;
  domain <- Benford.Domain b ;;
  match first_above p cdf 0 with
  | Some i => Benford.index domain i
  | None => Ok (Int.sub (Benford.Base b) 1)
  end.

End MathLog.

End Benford64.

(** ** Vocabulary of the specification

    Notions the specification uses to state what the code computes. *)

Module Spec.
Import Benford.
Open Scope Z_scope.

(** The sum of a sequence of floats. *)
Definition total (l : list R) : R := fold_right Rplus 0%R l.

(** [Prob b 1 + ... + Prob b n]. *)
Fixpoint sum_to (b : Benfords) (n : nat) : R :=
  match n with
  | O => 0%R
  | S n' => (sum_to b n' + Prob b (Z.of_nat n))%R
  end.

(** "The running sum of [prob(i)] for [i] from 1 to [x] inclusive." *)
Definition running_sum (b : Benfords) (x : Z) : R := sum_to b (Z.to_nat x).

(** The cumulative probability of the digit [n] in [float64]: the
    probabilities of the digits 1 to [n], added to 0 one by one in increasing
    order. *)
Fixpoint cumulative (Log : F64.float64 -> F64.float64) (b : Benfords)
    (n : nat) : F64.float64 :=
  match n with
  | O => F64.zero
  | S n' => F64.add (cumulative Log b n') (Benford64.Prob Log b (Z.of_nat n))
  end.

(** The value [d_0 + d_1 * B + d_2 * B^2 + ...] of a digit sequence, lowest
    order first. *)
Fixpoint digits_value (B : Z) (ds : list Z) : Z :=
  match ds with
  | [] => 0
  | d :: rest => d + B * digits_value B rest
  end.

(** Base 10. *)
Definition decimal : Benfords := {| Base := 10 |}.

(** A sample that the filter drops, or else a finite value below [2^63] in
    magnitude. *)
Definition measurable (v : F64.float64) : Prop :=
  Digits.usable v = true -> F64.valid v /\ F64.fits_int v.

(** The values of the tokens that [ParseFloat] accepts, in order. *)
Definition parsed (ParseFloat : string -> F64.float64 * bool)
    (strings : list string) : list F64.float64 :=
  flat_map (fun v => let '(x, err_nil) := ParseFloat v in
                     if err_nil then [x] else []) strings.

(** [d] is the leading digit of the positive integer [z] in base [B]:
    [z] lies in [[d * B^k, (d+1) * B^k)] for some [k]. *)
Definition leading_digit (B z d : Z) : Prop :=
  1 <= d <= B - 1 /\ exists k : Z, 0 <= k /\ d * B ^ k <= z < (d + 1) * B ^ k.

(** The absolute value, with the sign bit cleared. *)
Definition fabs (x : F64.float64) : F64.float64 := SFabs x.

(** Whether a call of [LeadDigit] returned the digit [d]. *)
Definition returned (r : result Z) (d : Z) : bool :=
  match r with
  | Ok x => x =? d
  | _ => false
  end.

(** How many of the samples the filter keeps, and how many of these have
    the leading digit [d]. *)
Definition kept_count (values : list F64.float64) : Z :=
  Z.of_nat (List.length (filter Digits.usable values)).

Definition digit_count (oor : F64.float64 -> Z) (fuel : nat) (base : Z)
    (values : list F64.float64) (d : Z) : Z :=
  Z.of_nat (List.length (filter
    (fun v => Digits.usable v && returned (Digits.LeadDigit oor fuel v base) d)
    values)).

(** The float64 values 0.002 and 1e19. *)
Definition f0_002 : F64.float64 :=
  Eval vm_compute in F64.div (F64.of_int 2) (F64.of_int 1000).

Definition f1e19 : F64.float64 := S754_finite false 4882812500000000 11.

End Spec.

(** * Arithmetic of [int] *)

Open Scope Z_scope.

Lemma wrap_in_range (z : Z) : Int.in_range z -> Int.wrap z = z.
Proof.
  unfold Int.in_range, Int.min_int, Int.max_int, Int.wrap.
  change (2 ^ 63) with 9223372036854775808.
  change (2 ^ 64) with 18446744073709551616.
  intros H. rewrite Z.mod_small; lia.
Qed.

Lemma wrap_range (z : Z) : Int.in_range (Int.wrap z).
Proof.
  unfold Int.in_range, Int.min_int, Int.max_int, Int.wrap.
  change (2 ^ 63) with 9223372036854775808.
  change (2 ^ 64) with 18446744073709551616.
  pose proof (Z.mod_pos_bound (z + 9223372036854775808) 18446744073709551616).
  lia.
Qed.

Lemma max_int_value : Int.max_int = 9223372036854775807.
Proof. reflexivity. Qed.

Lemma min_int_value : Int.min_int = -9223372036854775808.
Proof. reflexivity. Qed.

Lemma sub_in_range (a b : Z) : Int.in_range (a - b) -> Int.sub a b = a - b.
Proof. apply wrap_in_range. Qed.

Lemma add_in_range (a b : Z) : Int.in_range (a + b) -> Int.add a b = a + b.
Proof. apply wrap_in_range. Qed.

Ltac int_range :=
  unfold Int.in_range; rewrite ?max_int_value, ?min_int_value in *; lia.

(** * Properties of the Benford model *)

Section BenfordFacts.
Import Benford Spec.
Open Scope Z_scope.

Lemma ln_step (i : Z) :
  0 < i -> (ln (1 + 1 / IZR i) = ln (IZR (i + 1)) - ln (IZR i))%R.
Proof.
  intros Hi.
  assert (0 < IZR i)%R as Hr by (apply IZR_lt; exact Hi).
  assert (0 < IZR (i + 1))%R as Hs by (apply IZR_lt; lia).
  replace (1 + 1 / IZR i)%R with (IZR (i + 1) * / IZR i)%R.
  - rewrite ln_mult, ln_Rinv; try assumption.
    + lra.
    + apply Rinv_0_lt_compat; assumption.
  - rewrite plus_IZR. field. lra.
Qed.

Lemma ln_base_pos (base : Z) : 2 <= base -> (0 < ln (IZR base))%R.
Proof.
  intros H. rewrite <- ln_1. apply ln_increasing; [lra|].
  apply IZR_lt. lia.
Qed.

Variable b : Benfords.
Hypothesis base_range : 3 <= Base b <= Int.max_int.

Lemma base_pred : Int.sub (Base b) 1 = Base b - 1.
Proof. apply sub_in_range. int_range. Qed.

Lemma Prob_in_domain (x : Z) :
  1 <= x <= Base b - 1 ->
  Prob b x = ((ln (IZR (x + 1)) - ln (IZR x)) / ln (IZR (Base b)))%R.
Proof.
  intros Hx. unfold Prob, Log. rewrite base_pred.
  destruct (Z.ltb_spec x 1); [lia|].
  destruct (Z.ltb_spec (Base b - 1) x); [lia|].
  rewrite ln_step by lia. reflexivity.
Qed.


(** The loop of [CDF] telescopes. *)
Lemma for_loop_sum (steps : nat) : forall (i : Z) (tot : R),
  1 <= i -> i + Z.of_nat steps <= Base b ->
  for_loop steps i (fun i tot => (tot + Prob b i)%R) tot =
  (tot + (ln (IZR (i + Z.of_nat steps)) - ln (IZR i)) / ln (IZR (Base b)))%R.
Proof.
  pose proof (ln_base_pos (Base b) ltac:(lia)) as HL.
  induction steps as [|steps IH]; intros i tot Hi Hb.
  - simpl. rewrite Z.add_0_r. field. lra.
  - cbn [for_loop]. rewrite add_in_range by int_range.
    rewrite IH by lia. rewrite Prob_in_domain by lia.
    replace (i + 1 + Z.of_nat steps) with (i + Z.of_nat (S steps)) by lia.
    field. lra.
Qed.

Lemma CDF_in_domain (x : Z) : 1 <= x <= Base b - 1 -> CDF b x = 1%R.
Proof.
  intros Hx. unfold CDF. rewrite base_pred.
  destruct (Z.ltb_spec x 1); [lia|].
  destruct (Z.ltb_spec (Base b - 1) x); [lia|].
  rewrite for_loop_sum by lia.
  rewrite Z2Nat.id by lia.
  replace (1 + (Base b - 1)) with (Base b) by lia.
  pose proof (ln_base_pos (Base b) ltac:(lia)). rewrite ln_1. field. lra.
Qed.


Lemma sum_to_telescopes (n : nat) :
  Z.of_nat n <= Base b - 1 ->
  sum_to b n = (ln (IZR (Z.of_nat n + 1)) / ln (IZR (Base b)))%R.
Proof.
  pose proof (ln_base_pos (Base b) ltac:(lia)) as HL.
  induction n as [|n IH]; intros Hn.
  - simpl. rewrite ln_1. field. lra.
  - cbn [sum_to]. rewrite IH by lia. rewrite Prob_in_domain by lia.
    replace (Z.of_nat n + 1) with (Z.of_nat (S n)) by lia.
    field. lra.
Qed.

Lemma running_sum_below_one (x : Z) :
  1 <= x <= Base b - 2 -> (running_sum b x < 1)%R.
Proof.
  intros Hx. unfold running_sum.
  pose proof (ln_base_pos (Base b) ltac:(lia)) as HL.
  rewrite sum_to_telescopes by lia. rewrite Z2Nat.id by lia.
  apply Rmult_lt_reg_r with (ln (IZR (Base b))); [exact HL|].
  unfold Rdiv. rewrite Rmult_assoc, Rinv_l, Rmult_1_r, Rmult_1_l by lra.
  apply ln_increasing; [apply IZR_lt; lia|apply IZR_lt; lia].
Qed.

Lemma make_len_base : make_len (Int.sub (Base b) 1) = Ok (Z.to_nat (Base b - 1)).
Proof.
  rewrite base_pred. unfold make_len.
  destruct (Z.ltb_spec (Base b - 1) 0); [lia|reflexivity].
Qed.

Lemma total_pdf (n : nat) : forall s : nat,
  Z.of_nat s + Z.of_nat n <= Base b - 1 ->
  total (map (fun i => Prob b (Int.add (Z.of_nat i) 1)) (seq s n)) =
  ((ln (IZR (Z.of_nat s + Z.of_nat n + 1)) - ln (IZR (Z.of_nat s + 1)))
   / ln (IZR (Base b)))%R.
Proof.
  pose proof (ln_base_pos (Base b) ltac:(lia)) as HL.
  induction n as [|n IH]; intros s Hs.
  - simpl. rewrite Z.add_0_r. field. lra.
  - cbn [seq map total fold_right].
    fold (total (map (fun i => Prob b (Int.add (Z.of_nat i) 1))
                  (seq (S s) n))).
    rewrite IH by lia. rewrite add_in_range by int_range.
    rewrite Prob_in_domain by lia.
    replace (Z.of_nat (S s) + Z.of_nat n + 1)
      with (Z.of_nat s + Z.of_nat (S n) + 1) by lia.
    replace (Z.of_nat (S s) + 1) with (Z.of_nat s + 1 + 1) by lia.
    field. lra.
Qed.

Lemma Domain_index (n i : nat) :
  (i < n)%nat -> Z.of_nat n <= Base b - 1 ->
  index (map (fun i => Int.add (Z.of_nat i) 1) (seq 0 n)) i = Ok (Z.of_nat i + 1).
Proof.
  intros Hi Hn. unfold index.
  rewrite nth_error_map, nth_error_seq.
  destruct (Nat.ltb_spec i n); [|lia]. cbn.
  now rewrite add_in_range by int_range.
Qed.

Lemma Prob_pos (x : Z) : 1 <= x <= Base b - 1 -> (0 < Prob b x)%R.
Proof.
  intros Hx. rewrite Prob_in_domain by exact Hx.
  pose proof (ln_base_pos (Base b) ltac:(lia)) as HL.
  apply Rdiv_lt_0_compat; [|exact HL].
  assert (ln (IZR x) < ln (IZR (x + 1)))%R; [|lra].
  apply ln_increasing; apply IZR_lt; lia.
Qed.

Lemma LogProb_in_domain (x : Z) :
  1 <= x <= Base b - 1 -> LogProb b x = Fin (Prob b x).
Proof.
  intros Hx. unfold LogProb. rewrite base_pred.
  destruct (Z.ltb_spec x 1); [lia|].
  destruct (Z.ltb_spec (Base b - 1) x); [lia|]. cbn.
  pose proof (Prob_pos x Hx).
  destruct (Req_dec_T (Prob b x) 0); [lra|reflexivity].
Qed.

(** X3: for every base >= 3, [LogProb] is negative infinity outside the
    digits [1 .. base-1]. *)
Lemma LogProb_outside (x : Z) :
  x < 1 \/ Base b - 1 < x -> LogProb b x = NegInf.
Proof.
  intros Hx. unfold LogProb. rewrite base_pred.
  destruct (Z.ltb_spec x 1); [reflexivity|].
  destruct (Z.ltb_spec (Base b - 1) x); [reflexivity|lia].
Qed.


(** In real arithmetic, for every base >= 3, [FullPDF] has length
    [base-1], holds [Prob b (i+1)] at index [i], and its entries sum to
    exactly 1: the sum telescopes. What the rounded [float64] sum of the code
    is, is not fixed by this. *)
Theorem FullPDF_sums_to_one :
  exists pdf : list R,
    FullPDF b = Ok pdf /\
    Z.of_nat (List.length pdf) = Base b - 1 /\
    (forall i : nat, (i < List.length pdf)%nat ->
       nth i pdf 0%R = Prob b (Z.of_nat i + 1)) /\
    total pdf = 1%R.
Proof.
  unfold FullPDF. rewrite make_len_base. cbn [bind].
  eexists. split; [reflexivity|].
  rewrite length_map, length_seq. split; [lia|]. split.
  - intros i Hi.
    rewrite (nth_indep _ 0%R (Prob b (Int.add (Z.of_nat 0) 1)))
      by now rewrite length_map, length_seq.
    rewrite (map_nth (fun i => Prob b (Int.add (Z.of_nat i) 1))).
    rewrite seq_nth by exact Hi. rewrite add_in_range by int_range.
    reflexivity.
  - rewrite total_pdf by lia. rewrite Z2Nat.id by lia.
    pose proof (ln_base_pos (Base b) ltac:(lia)) as HL.
    replace (Z.of_nat 0 + (Base b - 1) + 1) with (Base b) by lia.
    cbn. rewrite ln_1. field. lra.
Qed.

(** X8: for every base >= 3, [Domain] is the digits [1 .. base-1] in
    increasing order. *)
Theorem Domain_is_the_digits :
  exists domain : list Z,
    Domain b = Ok domain /\
    Z.of_nat (List.length domain) = Base b - 1 /\
    (forall i : nat, (i < List.length domain)%nat ->
       nth i domain 0 = Z.of_nat i + 1).
Proof.
  unfold Domain. rewrite make_len_base. cbn [bind].
  eexists. split; [reflexivity|].
  rewrite length_map, length_seq. split; [lia|].
  intros i Hi.
  rewrite (nth_indep _ 0 (Int.add (Z.of_nat 0) 1))
    by now rewrite length_map, length_seq.
  rewrite (map_nth (fun i => Int.add (Z.of_nat i) 1)).
  rewrite seq_nth by exact Hi. now rewrite add_in_range by int_range.
Qed.

Lemma over_bins_same {S : Type} (body : S -> R -> R -> S) (s : S)
    (l : list R) :
  (forall r : R, body s r r = s) -> over_bins body l l s = Ok s.
Proof.
  intros Hs. induction l as [|r l IH]; cbn [over_bins]; [reflexivity|].
  now rewrite Hs.
Qed.

(** X5: for every base >= 3 and sample count [n >= 0], the Cho-Gaines and
    the Leemis statistics of the ideal distribution itself are 0. *)
Theorem stats_vanish_on_ideal (nSamples : Z) :
  0 <= nSamples ->
  exists pdf : list R,
    FullPDF b = Ok pdf /\
    ChoGainesStat b nSamples pdf = Ok (Fin 0) /\
    LeemisStat b nSamples pdf = Ok (Fin 0).
Proof.
  intros Hn. unfold ChoGainesStat, LeemisStat, FullPDF.
  rewrite make_len_base. cbn [bind].
  eexists. split; [reflexivity|]. rewrite Nat.eqb_refl. cbn [negb].
  assert (0 <= IZR nSamples)%R as Hr by (apply IZR_le; exact Hn).
  split.
  - rewrite over_bins_same by (intros r; ring). cbn [bind].
    unfold Sqrt. rewrite Rmult_0_r.
    destruct (Rlt_dec 0 0); [lra|]. now rewrite sqrt_0.
  - rewrite over_bins_same.
    + cbn [bind]. unfold Sqrt.
      destruct (Rlt_dec (IZR nSamples) 0); [lra|]. now rewrite Rmult_0_r.
    + intros r. replace (r - r)%R with 0%R by ring.
      rewrite Rabs_R0. apply Rmax_left. lra.
Qed.


End BenfordFacts.

(** * The model at concrete inputs, and the entry points' preconditions *)

Section ClosedFacts.
Import Benford Spec.
Open Scope Z_scope.

Lemma ln_below (p : R) : (0 < p)%R -> (ln p < p)%R.
Proof.
  intros Hp. rewrite <- (ln_exp p) at 2.
  apply ln_increasing; [exact Hp|].
  pose proof (exp_ineq1_le p). lra.
Qed.

Lemma decimal_range : 3 <= Base decimal <= Int.max_int.
Proof. cbn [decimal Base]. rewrite max_int_value. lia. Qed.

(** C1 (the code differs): in base 10 [CDF] at digit 1 is the sum over the
    whole domain, 1, and not the running sum up to digit 1, which is
    [Prob decimal 1] and below 1. *)
Theorem CDF_is_the_total :
  CDF decimal 1 = 1%R /\
  running_sum decimal 1 = Prob decimal 1 /\
  (running_sum decimal 1 < 1)%R.
Proof.
  split; [apply (CDF_in_domain decimal decimal_range); cbn; lia|].
  split.
  { unfold running_sum. change (Z.to_nat 1) with 1%nat. cbn [sum_to].
    change (Z.of_nat 1) with 1. lra. }
  apply (running_sum_below_one decimal decimal_range). cbn. lia.
Qed.

(** C2 (the code differs): in base 10 [LogProb] at digit 1 is [Prob]
    itself, a positive number, and not its natural logarithm, which is
    smaller. *)
Theorem LogProb_is_Prob :
  LogProb decimal 1 = Fin (Prob decimal 1) /\
  (ln (Prob decimal 1) < Prob decimal 1)%R.
Proof.
  split.
  - apply (LogProb_in_domain decimal decimal_range). cbn. lia.
  - apply ln_below. apply (Prob_pos decimal decimal_range). cbn. lia.
Qed.

Lemma FullPDF_length (b : Benfords) (pdf : list R) :
  Int.min_int < Base b <= Int.max_int ->
  FullPDF b = Ok pdf -> Z.of_nat (List.length pdf) = Base b - 1.
Proof.
  intros Hb. unfold FullPDF, make_len. rewrite sub_in_range by int_range.
  destruct (Z.ltb_spec (Base b - 1) 0); cbn [bind]; [discriminate|].
  intros [= <-]. rewrite length_map, length_seq. lia.
Qed.

(** C8: [ChoGainesStat], [LeemisStat] and [ChiSquarePValue] panic, and
    return nothing, whenever the length of the realised distribution
    differs from [base-1], the length of the ideal PDF. *)
Theorem length_mismatch_panics
    (stat_ChiSquare : list R -> list R -> result value)
    (b : Benfords) (nSamples : Z) (realisedDist : list R) :
  Int.min_int < Base b <= Int.max_int ->
  Z.of_nat (List.length realisedDist) <> Base b - 1 ->
  (exists msg, ChoGainesStat b nSamples realisedDist = Panic msg) /\
  (exists msg, LeemisStat b nSamples realisedDist = Panic msg) /\
  (exists msg, ChiSquarePValue stat_ChiSquare b realisedDist = Panic msg).
Proof.
  intros Hb Hlen.
  pose proof (FullPDF_length b) as Hpdf.
  assert (forall pdf, FullPDF b = Ok pdf ->
    negb (Nat.eqb (List.length pdf) (List.length realisedDist)) = true) as Hne.
  { intros pdf E. apply Hpdf in E; [|exact Hb].
    destruct (Nat.eqb_spec (List.length pdf) (List.length realisedDist));
      [lia|reflexivity]. }
  split; [|split].
  - unfold ChoGainesStat. destruct (FullPDF b) as [pdf|msg|] eqn:E; cbn [bind].
    + rewrite (Hne pdf eq_refl). eauto.
    + eauto.
    + unfold FullPDF, make_len in E.
      destruct (Int.sub (Base b) 1 <? 0); discriminate.
  - unfold LeemisStat. destruct (FullPDF b) as [pdf|msg|] eqn:E; cbn [bind].
    + rewrite (Hne pdf eq_refl). eauto.
    + eauto.
    + unfold FullPDF, make_len in E.
      destruct (Int.sub (Base b) 1 <? 0); discriminate.
  - unfold ChiSquarePValue. rewrite sub_in_range by int_range.
    destruct (Z.eqb_spec (Z.of_nat (List.length realisedDist)) (Base b - 1)); [lia|].
    cbn. eauto.
Qed.


Lemma length_mismatch_panics_witness :
  exists msg, ChoGainesStat decimal 100 [1%R; 0%R] = Panic msg.
Proof.
  apply (length_mismatch_panics (fun _ _ => Ok NaN) decimal 100 [1%R; 0%R]).
  - cbn. unfold Int.min_int, Int.max_int. lia.
  - cbn. lia.
Defined.

Lemma LogProb_outside_witness : LogProb decimal 10 = NegInf.
Proof. apply (LogProb_outside decimal decimal_range 10). cbn. lia. Defined.

Lemma stats_vanish_on_ideal_witness :
  exists pdf : list R,
    FullPDF decimal = Ok pdf /\
    ChoGainesStat decimal 1000 pdf = Ok (Fin 0) /\
    LeemisStat decimal 1000 pdf = Ok (Fin 0).
Proof.
  apply (stats_vanish_on_ideal decimal decimal_range 1000). lia.
Defined.

Lemma Domain_is_the_digits_witness :
  exists domain : list Z,
    Domain decimal = Ok domain /\
    Z.of_nat (List.length domain) = 9 /\
    (forall i : nat, (i < List.length domain)%nat ->
       nth i domain 0 = Z.of_nat i + 1).
Proof. exact (Domain_is_the_digits decimal decimal_range). Defined.

End ClosedFacts.

(** * The distribution in [float64]

    What [CDF], [FullPDF], [FullCDF] and [Rand] compute with rounded sums,
    whatever [math.Log] returns. *)

Section Benford64Facts.
Import F64 Benford64 Spec.
Open Scope Z_scope.

Variable Log : float64 -> float64.
Variable b : Benford.Benfords.
Hypothesis base_range : 3 <= Benford.Base b <= Int.max_int.

Lemma running64_length (n : nat) :
  forall (i : nat) (t : float64), List.length (running Log b n i t) = n.
Proof.
  induction n as [|n IH]; intros i t; cbn [running List.length];
    [reflexivity|now rewrite IH].
Qed.

(** The running total of [FullCDF] after digit [i] is the cumulative
    probability of [i]. *)
Lemma running64_nth (n : nat) : forall (i k : nat),
  (k < n)%nat -> Z.of_nat i + Z.of_nat n <= Benford.Base b - 1 ->
  nth k (running Log b n i (cumulative Log b i)) zero =
  cumulative Log b (i + k + 1).
Proof.
  induction n as [|n IH]; intros i k Hk Hb; [lia|].
  cbn [running]. rewrite add_in_range by int_range.
  replace (Z.of_nat i + 1) with (Z.of_nat (S i)) by lia.
  change (add (cumulative Log b i) (Prob Log b (Z.of_nat (S i))))
    with (cumulative Log b (S i)).
  destruct k as [|k]; cbn [nth].
  - now replace (i + 0 + 1)%nat with (S i) by lia.
  - rewrite IH by lia. f_equal. lia.
Qed.

(** Entry [i] of [FullCDF] is the cumulative probability of digit [i+1]. *)
Lemma running64_cumulative (n i : nat) :
  (i < n)%nat -> Z.of_nat n <= Benford.Base b - 1 ->
  nth i (running Log b n 0 zero) zero = cumulative Log b (S i).
Proof.
  intros Hi Hn. replace (S i) with (0 + i + 1)%nat by lia.
  exact (running64_nth n 0 i Hi ltac:(lia)).
Qed.

(** The loop of [CDF], started after digit [k]. *)
Lemma for_loop64_cumulative (steps : nat) : forall k : nat,
  Z.of_nat k + Z.of_nat steps <= Benford.Base b - 1 ->
  Benford.for_loop steps (Z.of_nat k + 1)
    (fun i tot => add tot (Prob Log b i)) (cumulative Log b k) =
  cumulative Log b (k + steps).
Proof.
  induction steps as [|steps IH]; intros k Hk; cbn [Benford.for_loop].
  - now rewrite Nat.add_0_r.
  - rewrite add_in_range by int_range.
    replace (Z.of_nat k + 1) with (Z.of_nat (S k)) by lia.
    change (add (cumulative Log b k) (Prob Log b (Z.of_nat (S k))))
      with (cumulative Log b (S k)).
    replace (Z.of_nat (S k) + 1) with (Z.of_nat (S k) + 1) by lia.
    rewrite (IH (S k)) by lia. f_equal. lia.
Qed.

(** The scan of [Rand] stops at the first entry above [p]. *)
Lemma first_above64_spec (p : float64) (cdf : list float64) :
  forall i0 : nat,
  match first_above p cdf i0 with
  | Some i =>
      (i0 <= i < i0 + List.length cdf)%nat /\
      ltb p (nth (i - i0) cdf zero) = true /\
      (forall j, (i0 <= j < i)%nat -> ltb p (nth (j - i0) cdf zero) = false)
  | None =>
      forall j, (j < List.length cdf)%nat -> ltb p (nth j cdf zero) = false
  end.
Proof.
  induction cdf as [|v rest IH]; intros i0; cbn [first_above].
  - intros j Hj. cbn in Hj. lia.
  - destruct (ltb p v) eqn:Hv.
    + split; [cbn [List.length]; lia|].
      split; [now rewrite Nat.sub_diag|]. intros j Hj. lia.
    + specialize (IH (S i0)). destruct (first_above p rest (S i0)) as [i|].
      * destruct IH as (Hi & Hp & Hfirst). split; [cbn [List.length]; lia|].
        replace (i - i0)%nat with (S (i - S i0)) by lia. split; [exact Hp|].
        intros j Hj. destruct (Nat.eq_dec j i0) as [->|Hne].
        -- now rewrite Nat.sub_diag.
        -- replace (j - i0)%nat with (S (j - S i0)) by lia. apply Hfirst. lia.
      * intros [|j] Hj; [exact Hv|]. cbn [nth]. apply IH.
        cbn [List.length] in Hj. lia.
Qed.

(** C7: for every base >= 3 and every draw [p], [FullCDF] holds at index
    [i], for each of the [base-1] digits [i+1] in increasing order, the
    cumulative probability of that digit, and [Rand] returns the first digit
    whose cumulative probability exceeds [p]: no earlier entry exceeds [p]
    and the entry of the returned digit does; when no entry exceeds [p] it
    returns [base-1]. The result lies in [1 .. base-1]. *)
Theorem Rand_returns_first_exceeding (p : float64) :
  exists (cdf : list float64) (d : Z),
    FullCDF Log b = Ok cdf /\
    Z.of_nat (List.length cdf) = Benford.Base b - 1 /\
    (forall i : nat, (i < List.length cdf)%nat ->
       nth i cdf zero = cumulative Log b (S i)) /\
    Rand Log b p = Ok d /\
    1 <= d <= Benford.Base b - 1 /\
    (forall i : nat, Z.of_nat i + 1 < d -> ltb p (nth i cdf zero) = false) /\
    (ltb p (nth (Z.to_nat (d - 1)) cdf zero) = true \/
     (d = Benford.Base b - 1 /\
      forall i : nat, (i < List.length cdf)%nat ->
        ltb p (nth i cdf zero) = false)).
Proof.
  unfold Rand, FullCDF, Benford.Domain.
  rewrite (make_len_base b base_range). cbn [bind].
  set (n := Z.to_nat (Benford.Base b - 1)).
  exists (running Log b n 0 zero).
  pose proof (first_above64_spec p (running Log b n 0 zero) 0) as Hscan.
  rewrite running64_length in *.
  assert (forall i : nat, (i < n)%nat ->
    nth i (running Log b n 0 zero) zero = cumulative Log b (S i)) as Hnth.
  { intros i Hi. apply running64_cumulative; [exact Hi|unfold n; lia]. }
  destruct (first_above p (running Log b n 0 zero) 0) as [i|].
  - destruct Hscan as (Hi & Hp & Hfirst). rewrite Nat.sub_0_r in Hp.
    exists (Z.of_nat i + 1).
    split; [reflexivity|]. split; [unfold n; lia|]. split; [exact Hnth|].
    split; [apply (Domain_index b base_range); unfold n in *; lia|].
    split; [unfold n in *; lia|]. split.
    + intros j Hj. specialize (Hfirst j ltac:(lia)).
      now rewrite Nat.sub_0_r in Hfirst.
    + left. replace (Z.to_nat (Z.of_nat i + 1 - 1)) with i by lia. exact Hp.
  - exists (Benford.Base b - 1).
    split; [reflexivity|]. split; [unfold n; lia|]. split; [exact Hnth|].
    rewrite (base_pred b base_range). split; [reflexivity|]. split; [lia|].
    split.
    + intros j Hj. apply Hscan. unfold n. lia.
    + right. split; [reflexivity|exact Hscan].
Qed.

(** X2: for every base >= 3, [CDF] is 0 below digit 1 and 1 above digit
    [base-1]; at the last digit [base-1] it is the cumulative probability of
    that digit, the rounded sum that [FullCDF] ends in. *)
Theorem CDF_outside_domain (x : Z) :
  (x < 1 -> CDF Log b x = zero) /\
  (Benford.Base b - 1 < x -> CDF Log b x = one) /\
  (x = Benford.Base b - 1 ->
   CDF Log b x = cumulative Log b (Z.to_nat (Benford.Base b - 1)) /\
   exists cdf : list float64,
     FullCDF Log b = Ok cdf /\ last cdf zero = CDF Log b x).
Proof.
  unfold CDF. rewrite (base_pred b base_range).
  split; [|split]; intros Hx.
  - destruct (Z.ltb_spec x 1); [reflexivity|lia].
  - destruct (Z.ltb_spec x 1); [lia|].
    destruct (Z.ltb_spec (Benford.Base b - 1) x); [reflexivity|lia].
  - destruct (Z.ltb_spec x 1); [lia|].
    destruct (Z.ltb_spec (Benford.Base b - 1) x); [lia|].
    set (n := Z.to_nat (Benford.Base b - 1)).
    pose proof (for_loop64_cumulative n 0 ltac:(unfold n; lia)) as Hloop.
    cbn [cumulative Z.of_nat Z.add Nat.add] in Hloop. rewrite Hloop.
    split; [reflexivity|].
    unfold FullCDF. rewrite (make_len_base b base_range). cbn [bind].
    fold n. eexists. split; [reflexivity|].
    assert (running Log b n 0 zero <> []) as Hne.
    { intros E. apply (f_equal (@List.length float64)) in E.
      rewrite running64_length in E. cbn in E. unfold n in E. lia. }
    destruct (exists_last Hne) as (l & a & E). rewrite E, last_last.
    assert (List.length l = (n - 1)%nat) as Hl.
    { apply (f_equal (@List.length float64)) in E.
      rewrite running64_length, length_app in E. cbn in E. lia. }
    assert (nth (n - 1) (running Log b n 0 zero) zero = a) as Ha.
    { rewrite E, app_nth2 by lia. rewrite Hl, Nat.sub_diag. reflexivity. }
    rewrite <- Ha.
    rewrite running64_cumulative by (unfold n; lia).
    f_equal. unfold n. lia.
Qed.

(** X6: for every base >= 3, [FullPDF] and [FullCDF] have length [base-1];
    [FullPDF] holds [Prob (i+1)] at index [i], and [FullCDF] accumulates it:
    its first entry is [0 + pdf[0]] and each later entry is the entry before
    it plus the entry of [FullPDF] at the same index, as rounded [float64]
    sums. *)
Theorem FullCDF_accumulates_FullPDF :
  exists pdf cdf : list float64,
    FullPDF Log b = Ok pdf /\ FullCDF Log b = Ok cdf /\
    Z.of_nat (List.length pdf) = Benford.Base b - 1 /\
    List.length cdf = List.length pdf /\
    (forall i : nat, (i < List.length pdf)%nat ->
       nth i pdf zero = Prob Log b (Z.of_nat i + 1)) /\
    nth 0 cdf zero = add zero (nth 0 pdf zero) /\
    (forall i : nat, (S i < List.length cdf)%nat ->
       nth (S i) cdf zero = add (nth i cdf zero) (nth (S i) pdf zero)).
Proof.
  unfold FullPDF, FullCDF. rewrite (make_len_base b base_range). cbn [bind].
  set (n := Z.to_nat (Benford.Base b - 1)).
  eexists. eexists. split; [reflexivity|]. split; [reflexivity|].
  rewrite running64_length, length_map, length_seq.
  split; [unfold n; lia|]. split; [reflexivity|].
  assert (forall i : nat, (i < n)%nat ->
    nth i (map (fun i => Prob Log b (Int.add (Z.of_nat i) 1)) (seq 0 n)) zero =
    Prob Log b (Z.of_nat i + 1)) as Hpdf.
  { intros i Hi.
    rewrite (nth_indep _ zero (Prob Log b (Int.add (Z.of_nat 0) 1)))
      by now rewrite length_map, length_seq.
    rewrite (map_nth (fun i => Prob Log b (Int.add (Z.of_nat i) 1))).
    rewrite seq_nth by exact Hi. rewrite add_in_range by int_range.
    reflexivity. }
  assert (forall i : nat, (i < n)%nat ->
    nth i (running Log b n 0 zero) zero = cumulative Log b (S i)) as Hcdf.
  { intros i Hi. apply running64_cumulative; [exact Hi|unfold n; lia]. }
  split; [exact Hpdf|]. split.
  - rewrite Hcdf, Hpdf by (unfold n; lia). reflexivity.
  - intros i Hi. rewrite !Hcdf, Hpdf by lia. cbn [cumulative].
    f_equal. f_equal. lia.
Qed.

End Benford64Facts.

Section Benford64Closed.
Import F64 Benford64 Spec.

Lemma Rand_returns_first_exceeding_witness :
  (exists (cdf : list float64) (d : Z),
     FullCDF (fun x => x) decimal = Ok cdf /\
     Z.of_nat (List.length cdf) = Benford.Base decimal - 1 /\
     (forall i : nat, (i < List.length cdf)%nat ->
        nth i cdf zero = cumulative (fun x => x) decimal (S i)) /\
     Rand (fun x => x) decimal (div one (of_int 2)) = Ok d /\
     1 <= d <= Benford.Base decimal - 1 /\
     (forall i : nat, Z.of_nat i + 1 < d ->
        ltb (div one (of_int 2)) (nth i cdf zero) = false) /\
     (ltb (div one (of_int 2)) (nth (Z.to_nat (d - 1)) cdf zero) = true \/
      (d = Benford.Base decimal - 1 /\
       forall i : nat, (i < List.length cdf)%nat ->
         ltb (div one (of_int 2)) (nth i cdf zero) = false))) /\
  Rand (fun x => x) decimal (div one (of_int 2)) = Ok 4.
Proof.
  split.
  - exact (Rand_returns_first_exceeding (fun x => x) decimal decimal_range
             (div one (of_int 2))).
  - vm_compute. reflexivity.
Defined.

Lemma CDF_outside_domain_witness :
  CDF (fun x => x) decimal 0 = zero /\ CDF (fun x => x) decimal 10 = one /\
  CDF (fun x => x) decimal 9 = cumulative (fun x => x) decimal 9.
Proof.
  pose proof (CDF_outside_domain (fun x => x) decimal decimal_range) as H.
  split; [apply (H 0); lia|]. split; [apply (H 10); cbn; lia|].
  apply (H 9). reflexivity.
Defined.

Lemma FullCDF_accumulates_FullPDF_witness :
  exists pdf cdf : list float64,
    FullPDF (fun x => x) decimal = Ok pdf /\
    FullCDF (fun x => x) decimal = Ok cdf /\
    Z.of_nat (List.length pdf) = Benford.Base decimal - 1 /\
    List.length cdf = List.length pdf /\
    (forall i : nat, (i < List.length pdf)%nat ->
       nth i pdf zero = Prob (fun x => x) decimal (Z.of_nat i + 1)) /\
    nth 0 cdf zero = add zero (nth 0 pdf zero) /\
    (forall i : nat, (S i < List.length cdf)%nat ->
       nth (S i) cdf zero = add (nth i cdf zero) (nth (S i) pdf zero)).
Proof.
  exact (FullCDF_accumulates_FullPDF (fun x => x) decimal decimal_range).
Defined.

End Benford64Closed.

(** * Properties of [float64] arithmetic

    Rounding is followed through [SpecFloat]'s definitions by the magnitude
    of the values: the number of bits of the mantissa plus the exponent. *)

Section FloatFacts.
Import F64 Digits Spec.
Open Scope Z_scope.

Lemma digits2_log2 (m : positive) :
  Z.pos (digits2_pos m) = Z.log2 (Z.pos m) + 1.
Proof.
  induction m as [m IH|m IH|]; cbn [digits2_pos].
  - rewrite Pos2Z.inj_succ, IH, Pos2Z.inj_xI, Z.log2_succ_double; lia.
  - rewrite Pos2Z.inj_succ, IH, Pos2Z.inj_xO, Z.log2_double; lia.
  - reflexivity.
Qed.

Lemma Zdigits2_log2 (m : Z) : 0 < m -> Zdigits2 m = Z.log2 m + 1.
Proof. destruct m; try lia. intros _. apply digits2_log2. Qed.

Lemma fexp_eq (x : Z) : fexp prec emax x = Z.max (x - 53) (-1074).
Proof. reflexivity. Qed.

Lemma shr_1_m (mrs : shr_record) :
  0 <= shr_m mrs -> shr_m (shr_1 mrs) = shr_m mrs / 2.
Proof.
  destruct mrs as [m r s]. cbn [shr_m]. intros Hm.
  destruct m as [|[p|p|]|p]; cbn [shr_1 shr_m]; try lia.
  all: try reflexivity.
  - apply Z.div_unique with 1; lia.
  - apply Z.div_unique with 0; lia.
Qed.

Lemma iter_shr_m (p : positive) : forall mrs : shr_record,
  0 <= shr_m mrs ->
  shr_m (iter_pos shr_1 p mrs) = shr_m mrs / 2 ^ Z.pos p.
Proof.
  induction p as [p IH|p IH|]; intros mrs Hm; cbn [iter_pos].
  - assert (0 <= shr_m (shr_1 mrs)) by (rewrite shr_1_m by lia; apply Z.div_pos; lia).
    assert (0 <= shr_m (iter_pos shr_1 p (shr_1 mrs)))
      by (rewrite IH by lia; apply Z.div_pos; lia).
    assert (2 ^ Z.pos p~1 = 2 * 2 ^ Z.pos p * 2 ^ Z.pos p) as E.
    { rewrite (Pos2Z.inj_xI p).
      replace (2 * Z.pos p + 1) with (1 + Z.pos p + Z.pos p) by lia.
      rewrite !Z.pow_add_r by lia. reflexivity. }
    rewrite IH, IH, shr_1_m, E by lia.
    rewrite !Z.div_div by lia. f_equal. ring.
  - assert (0 <= shr_m (iter_pos shr_1 p mrs))
      by (rewrite IH by lia; apply Z.div_pos; lia).
    assert (2 ^ Z.pos p~0 = 2 ^ Z.pos p * 2 ^ Z.pos p) as E.
    { rewrite (Pos2Z.inj_xO p).
      replace (2 * Z.pos p) with (Z.pos p + Z.pos p) by lia.
      rewrite !Z.pow_add_r by lia. reflexivity. }
    rewrite IH, IH, E by lia.
    rewrite !Z.div_div by lia. reflexivity.
  - rewrite shr_1_m by lia. reflexivity.
Qed.

Lemma shr_fexp_spec (m e : Z) (l : location) :
  0 < m -> e <= fexp prec emax (Zdigits2 m + e) ->
  exists mrs : shr_record,
    shr_fexp prec emax m e l = (mrs, fexp prec emax (Zdigits2 m + e)) /\
    shr_m mrs = m / 2 ^ (fexp prec emax (Zdigits2 m + e) - e).
Proof.
  intros Hm He. unfold shr_fexp, shr.
  set (e' := fexp prec emax (Zdigits2 m + e)) in *.
  assert (shr_m (shr_record_of_loc m l) = m) as Hl
    by (destruct l as [|[]]; reflexivity).
  destruct (e' - e) as [|k|k] eqn:Ek; try lia.
  - eexists. split; [f_equal; lia|]. rewrite Hl. now rewrite Z.div_1_r.
  - eexists. split; [f_equal; lia|]. rewrite iter_shr_m by lia. now rewrite Hl.
Qed.

Lemma rne_bounds (m : Z) (l : location) :
  m <= round_nearest_even m l <= m + 1.
Proof.
  unfold round_nearest_even. destruct l as [|[]]; try lia.
  destruct (Z.even m); lia.
Qed.

Lemma log2_div_pow2 (m k : Z) :
  0 < m -> 0 <= k <= Z.log2 m ->
  0 < m / 2 ^ k /\ Z.log2 (m / 2 ^ k) = Z.log2 m - k.
Proof.
  intros Hm Hk. split.
  - apply Z.div_str_pos. split; [apply Z.pow_pos_nonneg; lia|].
    transitivity (2 ^ Z.log2 m); [apply Z.pow_le_mono_r; lia|].
    apply Z.log2_spec; lia.
  - rewrite <- Z.shiftr_div_pow2 by lia. rewrite Z.log2_shiftr by lia. lia.
Qed.

(** Rounding a positive number that is not below the least subnormal gives
    a canonical float of the same or the next magnitude, or overflows. *)
Lemma binary_round_aux_spec (s : bool) (m : positive) (e : Z) (l : location) :
  e <= fexp prec emax (mag m e) -> -1074 < mag m e ->
  exists (m' : positive) (e' : Z),
    canonical_mantissa prec emax m' e' = true /\
    mag m e <= mag m' e' <= mag m e + 1 /\
    binary_round_aux prec emax s (Z.pos m) e l =
      if e' <=? emax - prec then S754_finite s m' e' else S754_infinity s.
Proof.
  unfold mag. intros He Hmag.
  destruct (shr_fexp_spec (Z.pos m) e l ltac:(lia) He) as (mrs1 & E1 & M1).
  unfold binary_round_aux. rewrite E1.
  change (Zdigits2 (Z.pos m)) with (Z.pos (digits2_pos m)) in *.
  set (e1 := fexp prec emax (Z.pos (digits2_pos m) + e)) in *.
  set (r := round_nearest_even (shr_m mrs1) (loc_of_shr_record mrs1)).
  pose proof (rne_bounds (shr_m mrs1) (loc_of_shr_record mrs1)) as Hr. fold r in Hr.
  pose proof (digits2_log2 m) as Hd.
  assert (e1 = Z.max (Z.pos (digits2_pos m) + e - 53) (-1074)) as He1 by reflexivity.
  destruct (log2_div_pow2 (Z.pos m) (e1 - e) ltac:(lia) ltac:(lia)) as (Hpos1 & Hlog1).
  rewrite <- M1 in Hpos1, Hlog1.
  assert (Z.log2 (shr_m mrs1) <= Z.log2 r <= Z.log2 (shr_m mrs1) + 1) as Hlogr.
  { split; [apply Z.log2_le_mono; lia|].
    transitivity (Z.log2 (Z.succ (shr_m mrs1))); [apply Z.log2_le_mono; lia|].
    pose proof (Z.log2_succ_le (shr_m mrs1)). lia. }
  assert (e1 <= fexp prec emax (Zdigits2 r + e1)) as He2.
  { rewrite Zdigits2_log2 by lia. rewrite fexp_eq. lia. }
  destruct (shr_fexp_spec r e1 loc_Exact ltac:(lia) He2) as (mrs2 & E2 & M2).
  rewrite E2. rewrite Zdigits2_log2 in * by lia.
  set (e2 := fexp prec emax (Z.log2 r + 1 + e1)) in *.
  assert (e2 = Z.max (Z.log2 r + 1 + e1 - 53) (-1074)) as He2' by reflexivity.
  destruct (log2_div_pow2 r (e2 - e1) ltac:(lia) ltac:(lia)) as (Hpos2 & Hlog2).
  rewrite <- M2 in Hpos2, Hlog2.
  destruct (shr_m mrs2) as [|m'|m'] eqn:Em; try lia.
  exists m', e2. pose proof (digits2_log2 m') as Hd'.
  split; [|split; [lia|reflexivity]].
  unfold canonical_mantissa. apply Z.eqb_eq. rewrite fexp_eq. lia.
Qed.

Lemma canonical_eq (m : positive) (e : Z) :
  canonical m e <-> e = Z.max (mag m e - 53) (-1074).
Proof.
  unfold canonical, canonical_mantissa, mag. rewrite Z.eqb_eq, fexp_eq. lia.
Qed.

Lemma mag_mul (mx my : positive) (ex ey : Z) :
  mag mx ex + mag my ey - 1 <= mag (mx * my) (ex + ey) <= mag mx ex + mag my ey.
Proof.
  unfold mag. rewrite !digits2_log2, Pos2Z.inj_mul.
  pose proof (Z.log2_mul_below (Z.pos mx) (Z.pos my) ltac:(lia) ltac:(lia)).
  pose proof (Z.log2_mul_above (Z.pos mx) (Z.pos my) ltac:(lia) ltac:(lia)).
  lia.
Qed.

(** The product of two positive floats, the first at least 2. *)
Lemma mul_spec (mx my : positive) (ex ey : Z) :
  canonical mx ex -> canonical my ey -> 2 <= mag mx ex ->
  exists (m' : positive) (e' : Z),
    canonical m' e' /\
    mag my ey + 1 <= mag m' e' <= mag mx ex + mag my ey + 1 /\
    mul (S754_finite false mx ex) (S754_finite false my ey) =
      if e' <=? emax - prec then S754_finite false m' e' else S754_infinity false.
Proof.
  intros Hx Hy Hmag. apply canonical_eq in Hx, Hy.
  pose proof (mag_mul mx my ex ey) as Hp.
  assert (1 <= Z.pos (digits2_pos my)) as Hdy by lia.
  assert (mag my ey = Z.pos (digits2_pos my) + ey) as Hmy by reflexivity.
  destruct (binary_round_aux_spec false (mx * my) (ex + ey) loc_Exact)
    as (m' & e' & Hc & Hm & E).
  - rewrite fexp_eq. lia.
  - lia.
  - exists m', e'. split; [exact Hc|]. split; [lia|exact E].
Qed.

Lemma compare_cont_Eq (p q : positive) :
  PosDef.Pos.compare_cont Eq p q = Pos.compare p q.
Proof. reflexivity. Qed.

Lemma ltb_one_false (m : positive) (e : Z) :
  canonical m e -> 1 <= mag m e -> ltb (S754_finite false m e) one = false.
Proof.
  intros Hc Hmag. apply canonical_eq in Hc.
  unfold ltb, SFltb, one, SFcompare.
  destruct (Z.compare_spec e (-52)) as [He|He|He].
  - assert (Z.log2 (Z.pos m) = 52) as Hlog
      by (unfold mag in *; pose proof (digits2_log2 m); lia).
    pose proof (Z.log2_spec (Z.pos m) ltac:(lia)) as [Hlo _].
    rewrite Hlog in Hlo. change (2 ^ 52) with 4503599627370496 in Hlo.
    rewrite compare_cont_Eq.
    destruct (Pos.compare_spec m 4503599627370496) as [H|H|H].
    + reflexivity.
    + apply Pos2Z.pos_lt_pos in H. clear - Hlo H. lia.
    + reflexivity.
  - lia.
  - reflexivity.
Qed.

Lemma ltb_one_true (m : positive) (e : Z) :
  canonical m e -> mag m e <= 0 -> ltb (S754_finite false m e) one = true.
Proof.
  intros Hc Hmag. apply canonical_eq in Hc.
  unfold ltb, SFltb, one, SFcompare.
  destruct (Z.compare_spec e (-52)) as [He|He|He]; [lia|reflexivity|lia].
Qed.

(** For a canonical positive float, [n < 1] is [mag <= 0]. *)
Lemma ltb_one_mag (m : positive) (e : Z) :
  canonical m e ->
  ltb (S754_finite false m e) one = false <-> 1 <= mag m e.
Proof.
  intros Hc. split.
  - intros Hlt. destruct (Z_le_gt_dec (mag m e) 0) as [H|H]; [|lia].
    rewrite ltb_one_true in Hlt by assumption. discriminate.
  - apply ltb_one_false. exact Hc.
Qed.

Lemma ltb_pos_zero (m : positive) (e : Z) :
  ltb (S754_finite false m e) zero = false.
Proof. reflexivity. Qed.

Lemma iter_xO_value (p d : positive) :
  Z.pos (Pos.iter xO p d) = Z.pos p * 2 ^ Z.pos d.
Proof.
  induction d as [|d IH] using Pos.peano_ind.
  - cbn [Pos.iter]. rewrite (Pos2Z.inj_xO p). change (2 ^ 1) with 2. lia.
  - rewrite Pos.iter_succ, Pos2Z.inj_xO, IH, Pos2Z.inj_succ, Z.pow_succ_r by lia.
    ring.
Qed.

Lemma shl_align_spec (p : positive) (e e' : Z) :
  exists (mz : positive) (ez : Z),
    shl_align p e e' = (mz, ez) /\ ez = Z.min e e' /\
    Z.pos mz = Z.pos p * 2 ^ (e - ez) /\ mag mz ez = mag p e.
Proof.
  unfold shl_align. destruct (e' - e) as [|d|d] eqn:Ed.
  - exists p, e. rewrite Z.sub_diag, Z.mul_1_r. repeat split; lia.
  - exists p, e. rewrite Z.sub_diag, Z.mul_1_r. repeat split; lia.
  - exists (Pos.iter xO p d), e'.
    assert (e - e' = Z.pos d) as -> by lia.
    split; [reflexivity|]. split; [lia|]. split; [apply iter_xO_value|].
    unfold mag. rewrite !digits2_log2, iter_xO_value.
    rewrite Z.log2_mul_pow2 by lia. lia.
Qed.

(** [float64(z)] for a positive [z]. *)
Lemma binary_round_spec (s : bool) (p : positive) (e : Z) :
  -1074 < mag p e ->
  exists (m' : positive) (e' : Z),
    canonical m' e' /\ mag p e <= mag m' e' <= mag p e + 1 /\
    binary_round prec emax s p e =
      if e' <=? emax - prec then S754_finite s m' e' else S754_infinity s.
Proof.
  intros Hmag. unfold binary_round.
  destruct (shl_align_spec p e (fexp prec emax (Z.pos (digits2_pos p) + e)))
    as (mz & ez & E & Hez & _ & Hm).
  rewrite E. rewrite <- Hm in Hmag |- *.
  apply binary_round_aux_spec; [|exact Hmag].
  rewrite Hm. fold (mag p e) in Hez. lia.
Qed.

Lemma of_int_spec (z : Z) :
  2 <= z <= Int.max_int ->
  exists (m : positive) (e : Z),
    of_int z = S754_finite false m e /\ canonical m e /\
    2 <= mag m e <= 65 /\ Z.log2 z + 1 <= mag m e <= Z.log2 z + 2.
Proof.
  intros Hz. destruct z as [|p|p]; try lia.
  assert (1 <= Z.log2 (Z.pos p) < 63) as Hlog.
  { split; [apply Z.log2_le_pow2; cbn; lia|].
    apply Z.log2_lt_pow2; [lia|]. unfold Int.max_int in Hz. lia. }
  assert (mag p 0 = Z.log2 (Z.pos p) + 1) as Hmag
    by (unfold mag; rewrite digits2_log2; lia).
  destruct (binary_round_spec false p 0 ltac:(lia)) as (m & e & Hc & Hm & E).
  exists m, e. pose proof Hc as Hc'. apply canonical_eq in Hc'.
  unfold of_int, binary_normalize. rewrite E.
  destruct (Z.leb_spec e (emax - prec)) as [_|Hbig].
  - split; [reflexivity|]. split; [exact Hc|]. split; lia.
  - unfold emax, prec in Hbig. lia.
Qed.

Lemma binary_round_aux_exact (s : bool) (m : positive) (e : Z) :
  Z.pos (digits2_pos m) = 53 -> -1074 <= e <= 971 ->
  binary_round_aux prec emax s (Z.pos m) e loc_Exact = S754_finite s m e.
Proof.
  intros Hd He. unfold binary_round_aux, shr_fexp. cbn [Zdigits2].
  rewrite Hd.
  assert (fexp prec emax (53 + e) - e = 0) as -> by (rewrite fexp_eq; lia).
  cbn [shr shr_record_of_loc shr_m loc_of_shr_record round_nearest_even Zdigits2].
  rewrite Hd.
  assert (fexp prec emax (53 + e) - e = 0) as -> by (rewrite fexp_eq; lia).
  cbn [shr shr_record_of_loc shr_m].
  destruct (Z.leb_spec e (emax - prec)) as [_|H]; [reflexivity|].
  unfold emax, prec in H. lia.
Qed.

(** [float64(z)] is exact below [2^53], and [int] gives [z] back. *)
Lemma of_int_exact (z : Z) :
  1 <= z < 2 ^ 53 ->
  exists (m : positive) (e : Z),
    of_int z = S754_finite false m e /\ canonical m e /\ 1 <= mag m e /\
    trunc (S754_finite false m e) = Some z.
Proof.
  intros Hz. destruct z as [|p|p]; try lia.
  assert (0 <= Z.log2 (Z.pos p) < 53) as Hlog.
  { split; [apply Z.log2_nonneg|]. apply Z.log2_lt_pow2; lia. }
  pose proof (digits2_log2 p) as Hd.
  unfold of_int, binary_normalize, binary_round.
  destruct (shl_align_spec p 0 (fexp prec emax (Z.pos (digits2_pos p) + 0)))
    as (mz & ez & E & Hez & Hval & Hmag).
  rewrite E. rewrite fexp_eq in Hez. unfold mag in Hmag.
  assert (ez = Z.pos (digits2_pos p) - 53) as Hez' by lia.
  rewrite binary_round_aux_exact by lia.
  exists mz, ez. split; [reflexivity|]. split; [apply canonical_eq; unfold mag; lia|].
  split; [unfold mag; lia|]. unfold trunc.
  destruct (Z.leb_spec 0 ez) as [H0|H0].
  - assert (ez = 0) as -> by lia. rewrite Hval. cbn. f_equal. lia.
  - rewrite Hval. replace (0 - ez) with (- ez) by lia.
    rewrite Z.div_mul; [reflexivity|]. apply Z.pow_nonzero; lia.
Qed.

Lemma valid_canonical (s : bool) (m : positive) (e : Z) :
  valid (S754_finite s m e) -> canonical m e /\ -1073 <= mag m e.
Proof.
  unfold valid, valid_binary, bounded. rewrite andb_true_iff. intros [Hc _].
  split; [exact Hc|]. apply canonical_eq in Hc. unfold mag in *. lia.
Qed.

Lemma in_rangeb_spec (z : Z) : Int.in_rangeb z = true <-> Int.in_range z.
Proof.
  unfold Int.in_rangeb, Int.in_range. rewrite andb_true_iff, !Z.leb_le. tauto.
Qed.

Lemma to_int_range (oor : float64 -> Z) (x : float64) :
  Int.in_range (to_int oor x).
Proof.
  unfold to_int. destruct (trunc x) as [z|]; [|apply wrap_range].
  destruct (Int.in_rangeb z) eqn:E; [now apply in_rangeb_spec|apply wrap_range].
Qed.

(** The integer part of a float of magnitude [k >= 1] has [k] bits. *)
Lemma trunc_bounds (m : positive) (e : Z) :
  1 <= mag m e ->
  exists z : Z,
    trunc (S754_finite false m e) = Some z /\
    2 ^ (mag m e - 1) <= z < 2 ^ mag m e.
Proof.
  unfold mag. intros Hmag. pose proof (digits2_log2 m) as Hd.
  unfold trunc. eexists. split; [reflexivity|].
  assert (forall z, 0 < z -> Z.log2 z = Z.pos (digits2_pos m) + e - 1 ->
    2 ^ (Z.pos (digits2_pos m) + e - 1) <= z < 2 ^ (Z.pos (digits2_pos m) + e)) as Hlog.
  { intros z Hz Hl. pose proof (Z.log2_spec z Hz) as Hs. rewrite Hl in Hs.
    replace (Z.succ (Z.pos (digits2_pos m) + e - 1))
      with (Z.pos (digits2_pos m) + e) in Hs by lia. exact Hs. }
  destruct (Z.leb_spec 0 e) as [He|He].
  - apply Hlog.
    + apply Z.mul_pos_pos; [lia|]. apply Z.pow_pos_nonneg; lia.
    + rewrite Z.log2_mul_pow2 by lia. lia.
  - destruct (log2_div_pow2 (Z.pos m) (- e) ltac:(lia) ltac:(lia)) as (Hpos & Hl).
    apply Hlog; [exact Hpos|lia].
Qed.

Lemma to_int_small (oor : float64 -> Z) (m : positive) (e : Z) :
  1 <= mag m e <= 63 ->
  1 <= to_int oor (S754_finite false m e) <= Int.max_int.
Proof.
  intros Hmag. destruct (trunc_bounds m e ltac:(lia)) as (z & Ez & Hz).
  assert (1 <= z <= Int.max_int) as Hr.
  { assert (2 ^ 0 <= 2 ^ (mag m e - 1)) by (apply Z.pow_le_mono_r; lia).
    assert (2 ^ mag m e <= 2 ^ 63) by (apply Z.pow_le_mono_r; lia).
    change (2 ^ 0) with 1 in *. rewrite max_int_value.
    change (2 ^ 63) with 9223372036854775808 in *. lia. }
  unfold to_int. rewrite Ez.
  assert (Int.in_rangeb z = true) as ->; [|exact Hr].
  apply in_rangeb_spec. revert Hr. int_range.
Qed.

End FloatFacts.

(** * Properties of the digit extractor and the distribution builder *)

Section DigitsFacts.
Import F64 Digits Spec.
Open Scope Z_scope.

(** The multiply-up loop ends: each round raises the magnitude, and the
    result is a finite float that is at least 1. *)
Lemma mul_up_terminates (mb : positive) (eb : Z) :
  canonical mb eb -> 2 <= mag mb eb <= 65 ->
  forall (fuel : nat) (m : positive) (e : Z),
    canonical m e -> 1 - mag m e <= Z.of_nat fuel ->
    exists (m' : positive) (e' : Z),
      mul_up fuel (S754_finite false mb eb) (S754_finite false m e) =
        Ok (S754_finite false m' e') /\
      canonical m' e' /\
      1 <= mag m' e' <= Z.max (mag m e) (mag mb eb + 1).
Proof.
  intros Hb Hmb. induction fuel as [|fuel IH]; intros m e Hc Hfuel.
  - cbn [mul_up]. rewrite ltb_one_false by (trivial; lia).
    exists m, e. split; [reflexivity|]. split; [exact Hc|lia].
  - cbn [mul_up]. destruct (ltb (S754_finite false m e) one) eqn:Hlt.
    + assert (mag m e <= 0) as Hsmall.
      { destruct (Z_le_gt_dec (mag m e) 0) as [H|H]; [exact H|].
        rewrite ltb_one_false in Hlt by (trivial; lia). discriminate. }
      destruct (mul_spec mb m eb e Hb Hc ltac:(lia)) as (m' & e' & Hc' & Hm' & E).
      rewrite E. pose proof Hc' as He'. apply canonical_eq in He'.
      destruct (Z.leb_spec e' (emax - prec)) as [_|Hbig];
        [|unfold emax, prec in Hbig; lia].
      destruct (IH m' e' Hc' ltac:(lia)) as (m2 & e2 & E2 & Hc2 & Hm2).
      exists m2, e2. split; [exact E2|]. split; [exact Hc2|lia].
    + exists m, e. split; [reflexivity|]. split; [exact Hc|].
      apply ltb_one_mag in Hlt; [lia|exact Hc].
Qed.

Lemma pow2_le_fuel (fuel : nat) (k : Z) :
  0 <= k <= Z.of_nat fuel -> 2 ^ k <= 2 ^ Z.of_nat fuel.
Proof. intros H. apply Z.pow_le_mono_r; lia. Qed.

(** The divide-down loop ends: each round at least halves the residue. *)
Lemma div_down_terminates (base : Z) :
  2 <= base <= Int.max_int ->
  forall (fuel : nat) (resid : Z),
    Int.in_range resid -> resid < 2 ^ Z.of_nat fuel ->
    exists d : Z,
      div_down fuel base resid = Ok d /\ d < base /\ (1 <= resid -> 1 <= d).
Proof.
  intros Hb. induction fuel as [|fuel IH]; intros resid Hr Hlt; cbn [div_down].
  - change (2 ^ Z.of_nat 0) with 1 in Hlt.
    destruct (Z.leb_spec base resid); [lia|]. exists resid. repeat split; lia.
  - destruct (Z.leb_spec base resid) as [Hge|Hlt'].
    + unfold Int.quot. destruct (Z.eqb_spec base 0); [lia|]. cbn [bind].
      rewrite Z.quot_div_nonneg by lia.
      rewrite Nat2Z.inj_succ, Z.pow_succ_r in Hlt by lia.
      assert (1 <= resid / base) by (apply Z.div_le_lower_bound; lia).
      assert (resid / base < 2 ^ Z.of_nat fuel).
      { apply Z.div_lt_upper_bound; [lia|].
        pose proof (Z.pow_pos_nonneg 2 (Z.of_nat fuel) ltac:(lia) ltac:(lia)). nia. }
      assert (resid / base <= resid).
      { apply Z.div_le_upper_bound; [lia|]. nia. }
      assert (Int.in_range (resid / base)) as Hq by (revert Hr; int_range).
      rewrite wrap_in_range by exact Hq.
      destruct (IH (resid / base) Hq ltac:(lia)) as (d & E & Hd & Hd1).
      exists d. repeat split; [exact E|exact Hd|]. intros _. apply Hd1. lia.
    + exists resid. repeat split; lia.
Qed.

(** C9: for every base >= 2 and every finite, nonzero [n], [LeadDigit]
    terminates: given fuel for 1074 rounds, the multiply-up loop returns from
    every finite positive start, the divide-down loop returns from every
    [int], and [LeadDigit] returns a result. *)
Theorem LeadDigit_terminates (base : Z) (fuel : nat) :
  2 <= base <= Int.max_int -> (1074 <= fuel)%nat ->
  (forall x : float64,
     valid x -> finite_nonzero x -> ltb x zero = false ->
     exists r : float64, mul_up fuel (of_int base) x = Ok r) /\
  (forall resid : Z, Int.in_range resid ->
     exists d : Z, div_down fuel base resid = Ok d) /\
  (forall (oor : float64 -> Z) (n : float64),
     valid n -> finite_nonzero n ->
     exists d : Z, LeadDigit oor fuel n base = Ok d).
Proof.
  intros Hb Hfuel.
  destruct (of_int_spec base Hb) as (mb & eb & Eb & Hcb & Hmb & _).
  assert (forall (s : bool) (m : positive) (e : Z),
    valid (S754_finite s m e) ->
    exists r : float64,
      mul_up fuel (of_int base) (S754_finite false m e) = Ok r) as Hup.
  { intros s m e Hv. apply valid_canonical in Hv as [Hc Hm]. rewrite Eb.
    destruct (mul_up_terminates mb eb Hcb Hmb fuel m e Hc ltac:(lia))
      as (m' & e' & E & _). eexists. exact E. }
  assert (forall resid : Z, Int.in_range resid ->
    exists d : Z, div_down fuel base resid = Ok d) as Hdown.
  { intros resid Hr.
    destruct (div_down_terminates base Hb fuel resid Hr) as (d & E & _).
    - pose proof (pow2_le_fuel fuel 63 ltac:(lia)).
      revert Hr. unfold Int.in_range. rewrite max_int_value.
      change (2 ^ 63) with 9223372036854775808 in *. lia.
    - now exists d. }
  split; [|split; [exact Hdown|]].
  { intros x Hv Hx Hpos. destruct x as [| | |[] m e]; try contradiction.
    - discriminate Hpos.
    - exact (Hup false m e Hv). }
  intros oor n Hv Hn. destruct n as [| | |s m e]; try contradiction.
  unfold LeadDigit.
  assert ((if ltb (S754_finite s m e) zero then neg (S754_finite s m e)
           else S754_finite s m e) = S754_finite false m e) as ->
    by (destruct s; reflexivity).
  destruct (Hup s m e Hv) as (r & Er).
  destruct (ltb (S754_finite false m e) one); [rewrite Er|]; cbn [bind];
    apply Hdown, to_int_range.
Qed.

Lemma LeadDigit_terminates_witness :
  exists d : Z, LeadDigit oor_amd64 1074 f0_002 10 = Ok d.
Proof.
  apply (LeadDigit_terminates 10 1074).
  - unfold Int.max_int. lia.
  - lia.
  - vm_compute. reflexivity.
  - exact I.
Defined.

Lemma LeadDigit_of_int (oor : float64 -> Z) (fuel : nat) (z base : Z) :
  1 <= z < 2 ^ 53 ->
  LeadDigit oor fuel (of_int z) base = div_down fuel base z.
Proof.
  intros Hz. destruct (of_int_exact z Hz) as (m & e & E & Hc & Hm & Ht).
  unfold LeadDigit. rewrite E, ltb_pos_zero, ltb_one_false by assumption.
  cbn [bind]. unfold to_int. rewrite Ht.
  assert (Int.in_rangeb z = true) as ->; [|reflexivity].
  apply in_rangeb_spec. unfold Int.in_range. rewrite max_int_value, min_int_value.
  change (2 ^ 53) with 9007199254740992 in Hz. lia.
Qed.

Lemma digits_value_bounds (B : Z) (ds : list Z) :
  2 <= B -> Forall (fun d => 1 <= d <= B - 1) ds ->
  0 <= digits_value B ds < B ^ Z.of_nat (List.length ds) /\
  (ds <> [] -> 1 <= digits_value B ds).
Proof.
  intros HB Hds. induction Hds as [|d ds Hd Hds IH]; cbn [digits_value List.length].
  - split; [cbn; lia|congruence].
  - rewrite Nat2Z.inj_succ, Z.pow_succ_r by lia. split; [nia|]. intros _. nia.
Qed.

(** Dividing the value of a digit sequence down leaves its last digit. *)
Lemma div_down_digits (B : Z) :
  2 <= B -> forall (ds : list Z) (fuel : nat),
    ds <> [] -> Forall (fun d => 1 <= d <= B - 1) ds ->
    Int.in_range (digits_value B ds) -> (List.length ds <= fuel)%nat ->
    div_down fuel B (digits_value B ds) = Ok (last ds 0).
Proof.
  intros HB. induction ds as [|d ds IH]; intros fuel Hne Hds Hr Hfuel; [congruence|].
  inversion Hds as [|? ? Hd Hds']; subst.
  destruct (digits_value_bounds B ds HB Hds') as (Hv & Hv1).
  destruct ds as [|d' ds].
  - cbn [digits_value last] in *. rewrite Z.mul_0_r, Z.add_0_r.
    destruct fuel; cbn [div_down]; destruct (Z.leb_spec B d); (lia || reflexivity).
  - specialize (Hv1 ltac:(congruence)).
    set (v := digits_value B (d' :: ds)) in *.
    change (digits_value B (d :: d' :: ds)) with (d + B * v) in *.
    change (last (d :: d' :: ds) 0) with (last (d' :: ds) 0).
    destruct fuel as [|fuel]; [cbn in Hfuel; lia|]. cbn [div_down].
    destruct (Z.leb_spec B (d + B * v)); [|nia].
    unfold Int.quot. destruct (Z.eqb_spec B 0); [lia|]. cbn [bind].
    rewrite Z.quot_div_nonneg by lia.
    assert ((d + B * v) / B = v) as ->
      by (symmetry; apply Z.div_unique with d; lia).
    assert (Int.in_range v) as Hrv.
    { revert Hr. unfold Int.in_range. rewrite max_int_value, min_int_value.
      nia. }
    rewrite wrap_in_range by exact Hrv.
    apply IH; [congruence|exact Hds'|exact Hrv|cbn in Hfuel |- *; lia].
Qed.

(** C6, as the code has it: for every base [B >= 3] and all digits
    [d_0 .. d_(m-1)] in [1 .. B-1], [m >= 1], with [B^m <= 2^53], so that the
    value [d_0 + d_1 * B + ...] is a float64, [LeadDigit] of the value is the
    highest-order digit [d_(m-1)]. *)
Theorem LeadDigit_of_digits (oor : float64 -> Z) (fuel : nat) (B : Z)
    (ds : list Z) :
  3 <= B -> ds <> [] -> Forall (fun d => 1 <= d <= B - 1) ds ->
  B ^ Z.of_nat (List.length ds) <= 2 ^ 53 -> (List.length ds <= fuel)%nat ->
  LeadDigit oor fuel (of_int (digits_value B ds)) B = Ok (last ds 0).
Proof.
  intros HB Hne Hds Hsmall Hfuel.
  destruct (digits_value_bounds B ds ltac:(lia) Hds) as (Hv & Hv1).
  specialize (Hv1 Hne).
  rewrite LeadDigit_of_int by lia.
  apply div_down_digits; try assumption; [lia|].
  unfold Int.in_range. rewrite max_int_value, min_int_value.
  change (2 ^ 53) with 9007199254740992 in Hsmall. lia.
Qed.

Lemma LeadDigit_of_digits_witness :
  LeadDigit oor_amd64 64 (of_int (digits_value 16 [7; 5; 4])) 16 = Ok 4.
Proof.
  apply (LeadDigit_of_digits oor_amd64 64 16 [7; 5; 4]).
  - lia.
  - discriminate.
  - repeat constructor; lia.
  - vm_compute. discriminate.
  - cbn. lia.
Defined.

(** C6, as stated, fails: sixteen digits 9 in base 10 make a value that
    float64 rounds to 1e16, whose leading digit is 1. *)
Lemma LeadDigit_of_sixteen_nines :
  of_int (digits_value 10 (repeat 9 16%nat)) = of_int (10 ^ 16) /\
  LeadDigit oor_amd64 64 (of_int (digits_value 10 (repeat 9 16%nat))) 10 = Ok 1 /\
  LeadDigit oor_arm64 64 (of_int (digits_value 10 (repeat 9 16%nat))) 10 = Ok 1 /\
  last (repeat 9 16%nat) 0 = 9.
Proof. repeat split; vm_compute; reflexivity. Qed.

Lemma div_down_in_domain (oor : float64 -> Z) (fuel : nat) (base : Z)
    (m : positive) (e : Z) :
  2 <= base <= Int.max_int -> (63 <= fuel)%nat -> 1 <= mag m e <= 63 ->
  exists d : Z,
    div_down fuel base (to_int oor (S754_finite false m e)) = Ok d /\
    1 <= d <= base - 1.
Proof.
  intros Hb Hfuel Hm. pose proof (to_int_small oor m e Hm) as Hr.
  destruct (div_down_terminates base Hb fuel (to_int oor (S754_finite false m e)))
    as (d & E & Hd & Hd1).
  - revert Hr. int_range.
  - pose proof (pow2_le_fuel fuel 63 ltac:(lia)).
    rewrite max_int_value in Hr.
    change (2 ^ 63) with 9223372036854775808 in *. lia.
  - exists d. split; [exact E|]. specialize (Hd1 ltac:(lia)). lia.
Qed.

Lemma LeadDigit_in_domain (oor : float64 -> Z) (fuel : nat) (n : float64)
    (base : Z) :
  2 <= base < 2 ^ 61 -> (1074 <= fuel)%nat ->
  valid n -> finite_nonzero n -> fits_int n ->
  exists d : Z, LeadDigit oor fuel n base = Ok d /\ 1 <= d <= base - 1.
Proof.
  intros Hb Hfuel Hv Hn Hfit. destruct n as [| | |s m e]; try contradiction.
  cbn [fits_int] in Hfit.
  assert (2 <= base <= Int.max_int) as Hb'
    by (rewrite max_int_value; change (2 ^ 61) with 2305843009213693952 in Hb; lia).
  destruct (of_int_spec base Hb') as (mb & eb & Eb & Hcb & Hmb & Hlog).
  assert (Z.log2 base < 61) as Hl by (apply Z.log2_lt_pow2; lia).
  apply valid_canonical in Hv as [Hc Hm].
  unfold LeadDigit.
  assert ((if ltb (S754_finite s m e) zero then neg (S754_finite s m e)
           else S754_finite s m e) = S754_finite false m e) as ->
    by (destruct s; reflexivity).
  cbv zeta. destruct (ltb (S754_finite false m e) one) eqn:Hlt.
  - rewrite Eb.
    destruct (mul_up_terminates mb eb Hcb Hmb fuel m e Hc ltac:(lia))
      as (m' & e' & E & _ & Hm').
    rewrite E. cbn [bind]. apply div_down_in_domain; [exact Hb'|lia|lia].
  - cbn [bind]. apply div_down_in_domain; [exact Hb'|lia|].
    apply ltb_one_mag in Hlt; [lia|exact Hc].
Qed.

Lemma incr_at_ok (dist : list float64) : forall i : nat,
  (i < List.length dist)%nat ->
  exists dist' : list float64,
    incr_at dist i = Some dist' /\ List.length dist' = List.length dist.
Proof.
  induction dist as [|v dist IH]; intros i Hi; [cbn in Hi; lia|].
  destruct i as [|i]; cbn [incr_at].
  - eexists. split; reflexivity.
  - destruct (IH i ltac:(cbn in Hi; lia)) as (dist' & E & Hlen).
    rewrite E. eexists. split; [reflexivity|]. cbn. now rewrite Hlen.
Qed.

Lemma incr_ok (dist : list float64) (i : Z) :
  0 <= i < Z.of_nat (List.length dist) ->
  exists dist' : list float64,
    incr dist i = Ok dist' /\ List.length dist' = List.length dist.
Proof.
  intros Hi. unfold incr.
  destruct (Z.ltb_spec i 0); [lia|].
  destruct (Z.leb_spec (Z.of_nat (List.length dist)) i); [lia|]. cbn [orb].
  destruct (incr_at_ok dist (Z.to_nat i) ltac:(lia)) as (dist' & E & Hlen).
  rewrite E. now exists dist'.
Qed.

Lemma usable_finite (v : float64) :
  usable v = true -> fits_int v -> finite_nonzero v.
Proof. destruct v as [[]| | |]; cbn; try discriminate; try tauto. Qed.

Lemma tally_ok (oor : float64 -> Z) (fuel : nat) (base : Z) :
  2 <= base < 2 ^ 61 -> (1074 <= fuel)%nat ->
  forall (values : list float64) (st : float64 * list float64),
    Forall measurable values ->
    Z.of_nat (List.length (snd st)) = base - 1 ->
    exists st' : float64 * list float64,
      tally oor fuel base values st = Ok st' /\
      Z.of_nat (List.length (snd st')) = base - 1.
Proof.
  intros Hb Hfuel. induction values as [|v values IH]; intros st Hvs Hlen.
  - exists st. split; [reflexivity|exact Hlen].
  - inversion Hvs as [|? ? Hv Hvs']; subst. cbn [tally].
    destruct st as [validValues dist]. cbn [snd] in Hlen.
    destruct (usable v) eqn:Hu; [|now apply IH].
    destruct (Hv Hu) as [Hvalid Hfit].
    destruct (LeadDigit_in_domain oor fuel v base Hb Hfuel Hvalid
                (usable_finite v Hu Hfit) Hfit) as (d & E & Hd).
    rewrite E. cbn [bind].
    rewrite sub_in_range
      by (change (2 ^ 61) with 2305843009213693952 in Hb; int_range).
    destruct (incr_ok dist (d - 1) ltac:(lia)) as (dist' & E' & Hlen').
    rewrite E'. cbn [bind]. apply IH; [exact Hvs'|]. cbn [snd]. lia.
Qed.

(** X1: for every base in [2, 2^61) and every input whose kept samples are
    finite and below [2^63] in magnitude, the tally stays within bounds,
    whatever [int] does out of range: the builder returns, with [base-1]
    entries. *)
Theorem bounded_samples_stay_in_bounds (oor : float64 -> Z) (fuel : nat)
    (values : list float64) (base : Z) :
  2 <= base < 2 ^ 61 -> (1074 <= fuel)%nat ->
  Forall measurable values ->
  exists (dist : list float64) (count : Z),
    ComputeLeadDigitDistribution oor fuel values base = Ok (dist, count) /\
    Z.of_nat (List.length dist) = base - 1.
Proof.
  intros Hb Hfuel Hvs. unfold ComputeLeadDigitDistribution, make_floats.
  rewrite sub_in_range
    by (change (2 ^ 61) with 2305843009213693952 in Hb; int_range).
  destruct (Z.ltb_spec (base - 1) 0); [lia|]. cbn [bind].
  destruct (tally_ok oor fuel base Hb Hfuel values
              (zero, repeat zero (Z.to_nat (base - 1))) Hvs)
    as ([validValues dist] & E & Hlen).
  - cbn [snd]. rewrite repeat_length. lia.
  - rewrite E. cbn [bind]. eexists. eexists. split; [reflexivity|].
    rewrite length_map. exact Hlen.
Qed.

Lemma bounded_samples_stay_in_bounds_witness :
  exists (dist : list float64) (count : Z),
    ComputeLeadDigitDistribution oor_amd64 1074 [f0_002; zero; of_int 25] 10 =
      Ok (dist, count) /\
    Z.of_nat (List.length dist) = 9.
Proof.
  apply (bounded_samples_stay_in_bounds oor_amd64 1074
           [f0_002; zero; of_int 25] 10).
  - split; [lia|vm_compute; reflexivity].
  - lia.
  - repeat constructor; intros Hu; vm_compute in Hu; try discriminate Hu;
      split; vm_compute; (reflexivity || discriminate).
Defined.

Lemma tally_none_usable (oor : float64 -> Z) (fuel : nat) (base : Z)
    (values : list float64) (st : float64 * list float64) :
  Forall (fun v => usable v = false) values ->
  tally oor fuel base values st = Ok st.
Proof.
  intros H. induction H as [|v values Hv _ IH]; cbn [tally].
  - reflexivity.
  - destruct st as [validValues dist]. rewrite Hv. exact IH.
Qed.

(** C3, as the code has it: for every base >= 3, on an input of which the
    filter keeps no sample the builder surfaces no error; it returns the
    count 0 with [base-1] entries that are all NaN (0/0). *)
Theorem no_usable_sample_gives_NaN (oor : float64 -> Z) (fuel : nat)
    (values : list float64) (base : Z) :
  3 <= base <= Int.max_int ->
  Forall (fun v => usable v = false) values ->
  ComputeLeadDigitDistribution oor fuel values base =
    Ok (repeat nan (Z.to_nat (base - 1)), 0).
Proof.
  intros Hb Hv. unfold ComputeLeadDigitDistribution, make_floats.
  rewrite sub_in_range by int_range.
  destruct (Z.ltb_spec (base - 1) 0); [lia|]. cbn [bind].
  rewrite tally_none_usable by exact Hv. cbn [bind].
  rewrite map_repeat. reflexivity.
Qed.

Lemma no_usable_sample_gives_NaN_witness :
  ComputeLeadDigitDistribution oor_amd64 0 [zero; nan; neg zero] 10 =
    Ok (repeat nan 9, 0).
Proof.
  apply (no_usable_sample_gives_NaN oor_amd64 0 [zero; nan; neg zero] 10).
  - unfold Int.max_int. lia.
  - repeat constructor.
Defined.

(** C3, as stated, fails: all-zero and all-NaN inputs give a NaN-filled
    distribution and no error. *)
Lemma all_zero_or_NaN_input_returns :
  ComputeLeadDigitDistribution oor_amd64 0 [zero; zero] 3 = Ok ([nan; nan], 0) /\
  ComputeLeadDigitDistribution oor_arm64 0 [nan; nan] 3 = Ok ([nan; nan], 0).
Proof. split; vm_compute; reflexivity. Qed.

(** C10 (the code differs): 1e19 is a finite sample that the filter keeps,
    its integer part does not fit an [int], and on amd64 [LeadDigit] gives
    the smallest [int], so that the tally indexes out of range; an infinity
    does the same. (Where the conversion saturates, [LeadDigit] gives 9 for
    this value, whose leading digit is 1.) *)
Theorem large_sample_indexes_out_of_range :
  valid f1e19 /\ usable f1e19 = true /\ trunc f1e19 = Some (10 ^ 19) /\
  LeadDigit oor_amd64 64 f1e19 10 = Ok Int.min_int /\
  LeadDigit oor_arm64 64 f1e19 10 = Ok 9 /\
  ComputeLeadDigitDistribution oor_amd64 64 [f1e19] 10 =
    Panic "index out of range" /\
  ComputeLeadDigitDistribution oor_amd64 64 [inf] 10 =
    Panic "index out of range".
Proof. repeat split; vm_compute; reflexivity. Qed.

(** X7: the leading digits of the package's test: of 999, 0.002 and -321 in
    base 10, and of 16, 3 * 16 and 5 * 16 + 4 * 16^2 in base 16. *)
Theorem LeadDigit_examples (oor : float64 -> Z) :
  LeadDigit oor 64 (of_int 999) 10 = Ok 9 /\
  LeadDigit oor 64 f0_002 10 = Ok 2 /\
  LeadDigit oor 64 (of_int (-321)) 10 = Ok 3 /\
  LeadDigit oor 64 (of_int 16) 16 = Ok 1 /\
  LeadDigit oor 64 (of_int (3 * 16)) 16 = Ok 3 /\
  LeadDigit oor 64 (of_int (5 * 16 + 4 * 16 * 16)) 16 = Ok 4.
Proof. repeat split; vm_compute; reflexivity. Qed.

Lemma mul_up_zero (b : float64) : forall (fuel : nat) (s1 s2 : bool),
  mul_up fuel b (S754_zero s1) = mul_up fuel b (S754_zero s2).
Proof.
  induction fuel as [|fuel IH]; intros s1 s2; cbn [mul_up].
  - reflexivity.
  - change (ltb (S754_zero s1) one) with true.
    change (ltb (S754_zero s2) one) with true. cbv iota.
    destruct b as [sb|sb| |sb mb eb]; cbn [mul SFmul]; unfold mul, SFmul;
      first [apply IH|reflexivity].
Qed.

(** X9: [LeadDigit] treats [n] and [-n] alike. *)
Theorem LeadDigit_neg (oor : float64 -> Z) (fuel : nat) (n : float64)
    (base : Z) :
  LeadDigit oor fuel (neg n) base = LeadDigit oor fuel n base.
Proof.
  destruct n as [s|s| |s m e].
  - unfold LeadDigit. change (ltb (neg (S754_zero s)) zero) with false.
    change (ltb (S754_zero s) zero) with false. cbv iota zeta.
    change (ltb (neg (S754_zero s)) one) with true.
    change (ltb (S754_zero s) one) with true. cbv iota.
    cbn [neg SFopp]. now rewrite (mul_up_zero (of_int base) fuel (negb s) s).
  - destruct s; reflexivity.
  - reflexivity.
  - destruct s; reflexivity.
Qed.

(** ** Exact counting in [float64] *)

Lemma shr_1_even (q : Z) :
  0 < q ->
  shr_1 {| shr_m := 2 * q; shr_r := false; shr_s := false |} =
  {| shr_m := q; shr_r := false; shr_s := false |}.
Proof. destruct q; try lia. reflexivity. Qed.

(** Shifting out zeros is exact. *)
Lemma iter_shr_exact (k : positive) : forall q : Z,
  0 < q ->
  iter_pos shr_1 k {| shr_m := q * 2 ^ Z.pos k; shr_r := false; shr_s := false |} =
  {| shr_m := q; shr_r := false; shr_s := false |}.
Proof.
  induction k as [k IH|k IH|]; intros q Hq; cbn [iter_pos].
  - assert (0 < 2 ^ Z.pos k) as Hp by (apply Z.pow_pos_nonneg; lia).
    replace (q * 2 ^ Z.pos k~1) with (2 * (q * 2 ^ Z.pos k * 2 ^ Z.pos k)).
    + rewrite shr_1_even by nia. rewrite IH by nia. apply IH. exact Hq.
    + rewrite (Pos2Z.inj_xI k).
      replace (2 * Z.pos k + 1) with (1 + Z.pos k + Z.pos k) by lia.
      rewrite !Z.pow_add_r by lia. change (2 ^ 1) with 2. ring.
  - assert (0 < 2 ^ Z.pos k) as Hp by (apply Z.pow_pos_nonneg; lia).
    replace (q * 2 ^ Z.pos k~0) with (q * 2 ^ Z.pos k * 2 ^ Z.pos k).
    + rewrite IH by nia. apply IH. exact Hq.
    + rewrite (Pos2Z.inj_xO k).
      replace (2 * Z.pos k) with (Z.pos k + Z.pos k) by lia.
      rewrite !Z.pow_add_r by lia. ring.
  - change (2 ^ 1) with 2. rewrite Z.mul_comm. apply shr_1_even. exact Hq.
Qed.

(** Rounding a canonical mantissa that carries [j] more zero bits gives
    the canonical float back. *)
Lemma round_exact_shift (s : bool) (a : positive) (e j : Z) :
  canonical a e -> e <= emax - prec -> 0 <= j ->
  binary_round_aux prec emax s (Z.pos a * 2 ^ j) (e - j) loc_Exact =
  S754_finite s a e.
Proof.
  intros Hc He Hj. pose proof Hc as Hc'. apply canonical_eq in Hc'.
  unfold mag in Hc'. pose proof (digits2_log2 a) as Hd.
  assert (0 < 2 ^ j) as Hp by (apply Z.pow_pos_nonneg; lia).
  unfold binary_round_aux, shr_fexp.
  rewrite Zdigits2_log2 by nia. rewrite Z.log2_mul_pow2 by lia.
  assert (fexp prec emax (j + Z.log2 (Z.pos a) + 1 + (e - j)) - (e - j) = j) as ->
    by (rewrite fexp_eq; lia).
  assert (shr (shr_record_of_loc (Z.pos a * 2 ^ j) loc_Exact) (e - j) j =
          ({| shr_m := Z.pos a; shr_r := false; shr_s := false |}, e)) as ->.
  { unfold shr, shr_record_of_loc. destruct j as [|j|j]; try lia.
    - rewrite Z.mul_1_r. f_equal. lia.
    - rewrite iter_shr_exact by lia. f_equal. lia. }
  cbn [shr_m loc_of_shr_record round_nearest_even Zdigits2].
  assert (fexp prec emax (Z.pos (digits2_pos a) + e) - e = 0) as ->
    by (rewrite fexp_eq; lia).
  cbn [shr shr_record_of_loc shr_m].
  destruct (Z.leb_spec e (emax - prec)); [reflexivity|lia].
Qed.

Lemma binary_round_exact (s : bool) (p a : positive) (e j : Z) :
  canonical a e -> e <= emax - prec -> 0 <= j -> Z.pos p = Z.pos a * 2 ^ j ->
  binary_round prec emax s p (e - j) = S754_finite s a e.
Proof.
  intros Hc He Hj Hp. unfold binary_round.
  destruct (shl_align_spec p (e - j)
              (fexp prec emax (Z.pos (digits2_pos p) + (e - j))))
    as (mz & ez & E & Hez & Hval & _).
  rewrite E. pose proof Hc as Hc'. apply canonical_eq in Hc'. unfold mag in Hc'.
  pose proof (digits2_log2 a) as Hda. pose proof (digits2_log2 p) as Hdp.
  rewrite Hp, Z.log2_mul_pow2 in Hdp by lia.
  rewrite fexp_eq in Hez.
  assert (ez = e - j) as -> by lia.
  rewrite Z.sub_diag, Z.mul_1_r in Hval. rewrite Hval, Hp.
  apply round_exact_shift; assumption.
Qed.

(** The float of a positive integer below [2^53]. *)
Lemma of_int_shape (z : Z) :
  1 <= z < 2 ^ 53 ->
  exists (m : positive) (e : Z),
    of_int z = S754_finite false m e /\ canonical m e /\
    -52 <= e <= 0 /\ Z.pos m = z * 2 ^ (- e).
Proof.
  intros Hz. destruct z as [|p|p]; try lia.
  assert (0 <= Z.log2 (Z.pos p) < 53) as Hlog.
  { split; [apply Z.log2_nonneg|]. apply Z.log2_lt_pow2; lia. }
  pose proof (digits2_log2 p) as Hd.
  unfold of_int, binary_normalize, binary_round.
  destruct (shl_align_spec p 0 (fexp prec emax (Z.pos (digits2_pos p) + 0)))
    as (mz & ez & E & Hez & Hval & Hmag).
  rewrite E. rewrite fexp_eq in Hez. unfold mag in Hmag.
  assert (ez = Z.pos (digits2_pos p) - 53) as Hez' by lia.
  rewrite binary_round_aux_exact by lia.
  exists mz, ez. split; [reflexivity|].
  split; [apply canonical_eq; unfold mag; lia|]. split; [lia|].
  rewrite Hval. reflexivity.
Qed.

(** A canonical float is determined by the integer it holds. *)
Lemma of_int_unique (z : Z) (m : positive) (e : Z) :
  1 <= z < 2 ^ 53 -> canonical m e -> e <= 0 -> Z.pos m = z * 2 ^ (- e) ->
  of_int z = S754_finite false m e.
Proof.
  intros Hz Hc He Hm.
  destruct (of_int_shape z Hz) as (m' & e' & E & Hc' & He' & Hm').
  rewrite E. apply canonical_eq in Hc, Hc'. unfold mag in Hc, Hc'.
  rewrite digits2_log2 in Hc, Hc'. rewrite Hm in Hc. rewrite Hm' in Hc'.
  rewrite Z.log2_mul_pow2 in Hc, Hc' by lia.
  assert (e' = e) as -> by lia.
  f_equal. apply Pos2Z.inj. now rewrite Hm, Hm'.
Qed.

(** Counting in float64 is exact below [2^53]. *)
Lemma add_one_exact (z : Z) :
  0 <= z -> z + 1 < 2 ^ 53 -> add (of_int z) one = of_int (z + 1).
Proof.
  intros Hz Hlt. destruct (Z.eq_dec z 0) as [->|Hnz]; [reflexivity|].
  destruct (of_int_shape z ltac:(lia)) as (m & e & E & Hc & He & Hm).
  destruct (of_int_shape (z + 1) ltac:(lia)) as (m' & e' & E' & Hc' & He' & Hm').
  rewrite E, E'. unfold add, one, SFadd.
  rewrite Z.min_r by lia.
  destruct (shl_align_spec m e (-52)) as (mz & ez & Ea & Hez & Hval & _).
  rewrite Ea. cbn [fst]. rewrite Z.min_r in Hez by lia. subst ez.
  change (shl_align 4503599627370496 (-52) (-52)) with (4503599627370496%positive, -52).
  cbn [fst cond_Zopp]. 
  change (Z.pos mz + 4503599627370496) with (Z.pos (mz + 4503599627370496)).
  unfold binary_normalize.
  pose proof (binary_round_exact false (mz + 4503599627370496) m' e' (e' + 52)
                Hc' ltac:(unfold emax, prec; lia) ltac:(lia)) as H.
  replace (e' - (e' + 52)) with (-52) in H by lia. apply H.
  rewrite Pos2Z.inj_add, Hval, Hm, Hm'.
  assert (forall x : Z, -52 <= x <= 0 ->
    2 ^ (- x) * 2 ^ (x + 52) = 4503599627370496) as Hpow.
  { intros x Hx. rewrite <- Z.pow_add_r by lia.
    replace (- x + (x + 52)) with 52 by lia. reflexivity. }
  replace (e - -52) with (e + 52) by lia.
  rewrite <- !Z.mul_assoc, !Hpow by lia. ring.
Qed.

(** ** The builders *)

Lemma tally_filter (oor : float64 -> Z) (fuel : nat) (base : Z)
    (values : list float64) : forall st : float64 * list float64,
  tally oor fuel base (filter usable values) st = tally oor fuel base values st.
Proof.
  induction values as [|v values IH]; intros [validValues dist]; [reflexivity|].
  cbn [filter tally]. destruct (usable v) eqn:Hu.
  - cbn [tally]. rewrite Hu.
    destruct (LeadDigit oor fuel v base) as [d| |]; cbn [bind]; try reflexivity.
    destruct (incr dist (Int.sub d 1)); cbn [bind]; [apply IH|reflexivity..].
  - apply IH.
Qed.

(** X13: the builder's result does not depend on the samples its filter
    drops (zeros and NaNs): removing them from the input changes neither the
    distribution nor the count, nor a panic. *)
Theorem dropped_samples_do_not_count (oor : float64 -> Z) (fuel : nat)
    (values : list float64) (base : Z) :
  ComputeLeadDigitDistribution oor fuel (filter usable values) base =
  ComputeLeadDigitDistribution oor fuel values base.
Proof.
  unfold ComputeLeadDigitDistribution.
  destruct (make_floats (Int.sub base 1)); cbn [bind]; try reflexivity.
  now rewrite tally_filter.
Qed.

Lemma store_at_app (acc pad : list float64) (v : float64) :
  pad <> [] ->
  store_at (acc ++ pad) (List.length acc) v = Some (acc ++ v :: tl pad).
Proof.
  intros Hpad. induction acc as [|x acc IH]; cbn [app List.length store_at].
  - destruct pad; [congruence|reflexivity].
  - now rewrite IH.
Qed.

Lemma store_app (acc pad : list float64) (v : float64) :
  pad <> [] ->
  store (acc ++ pad) (Z.of_nat (List.length acc)) v = Ok (acc ++ v :: tl pad).
Proof.
  intros Hpad. unfold store.
  assert (List.length pad <> 0%nat) by (destruct pad; [congruence|discriminate]).
  destruct (Z.ltb_spec (Z.of_nat (List.length acc)) 0); [lia|].
  destruct (Z.leb_spec (Z.of_nat (List.length (acc ++ pad)))
              (Z.of_nat (List.length acc))) as [Hle|_].
  - rewrite length_app in Hle. lia.
  - cbn [orb]. rewrite Nat2Z.id, store_at_app by exact Hpad. reflexivity.
Qed.

Section Strings.
Variable ParseFloat : string -> float64 * bool.

(** The buffer holds the values kept so far, then what is left of the
    zeros it was made of. *)
Lemma collect_spec (strings : list string) : forall acc pad : list float64,
  (List.length strings <= List.length pad)%nat ->
  Z.of_nat (List.length acc) + Z.of_nat (List.length strings) <= Int.max_int ->
  exists pad' : list float64,
    collect ParseFloat strings (acc ++ pad, Z.of_nat (List.length acc)) =
      Ok ((acc ++ filter usable (parsed ParseFloat strings)) ++ pad',
          Z.of_nat (List.length (acc ++ filter usable (parsed ParseFloat strings)))).
Proof.
  induction strings as [|v strings IH]; intros acc pad Hpad Hmax.
  - exists pad. cbn [collect parsed flat_map filter]. now rewrite app_nil_r.
  - cbn [collect parsed flat_map]. fold (parsed ParseFloat strings).
    cbn [List.length] in Hpad, Hmax.
    destruct (ParseFloat v) as [asFloat err_nil].
    destruct err_nil; cbn [andb app].
    + cbn [filter].
      change (neqb asFloat zero && negb (IsNaN asFloat)) with (usable asFloat).
      destruct (usable asFloat) eqn:Hu.
      * destruct pad as [|z pad]; [cbn in Hpad; lia|].
        rewrite store_app by discriminate. cbn [bind tl].
        rewrite add_in_range by (clear IH; int_range).
        replace (Z.of_nat (List.length acc) + 1)
          with (Z.of_nat (List.length (acc ++ [asFloat])))
          by (rewrite length_app; cbn [List.length]; lia).
        replace (acc ++ asFloat :: pad) with ((acc ++ [asFloat]) ++ pad)
          by now rewrite <- app_assoc.
        destruct (IH (acc ++ [asFloat]) pad) as (pad' & E).
        -- cbn [List.length] in Hpad. lia.
        -- rewrite length_app. cbn [List.length]. lia.
        -- exists pad'. rewrite E. now rewrite <- !app_assoc.
      * apply IH; lia.
    + apply IH; lia.
Qed.

(** X14: for every list of tokens (of a length that is an [int]), the
    builder from strings is the numeric builder run on the values of the
    tokens that parse, in order: unparsable tokens are skipped, the buffer is
    never indexed or sliced out of range. *)
Theorem FromStrings_is_numeric_builder (oor : float64 -> Z) (fuel : nat)
    (strings : list string) (base : Z) :
  Z.of_nat (List.length strings) <= Int.max_int ->
  ComputeLeadDigitDistributionFromStrings oor ParseFloat fuel strings base =
  ComputeLeadDigitDistribution oor fuel (parsed ParseFloat strings) base.
Proof.
  intros Hlen. unfold ComputeLeadDigitDistributionFromStrings.
  destruct (collect_spec strings [] (repeat zero (List.length strings)))
    as (pad' & E).
  - now rewrite repeat_length.
  - cbn [List.length]. lia.
  - cbn [app List.length] in E. change (Z.of_nat 0) with 0 in E.
    rewrite E. cbn [bind]. unfold slice_to.
    set (kept := filter usable (parsed ParseFloat strings)).
    destruct (Z.ltb_spec (Z.of_nat (List.length kept)) 0); [lia|].
    destruct (Z.ltb_spec (Z.of_nat (List.length (kept ++ pad')))
                (Z.of_nat (List.length kept))) as [Hlt|_].
    + rewrite length_app in Hlt. lia.
    + cbn [orb bind]. rewrite Nat2Z.id, firstn_app, firstn_all, Nat.sub_diag.
      cbn [firstn]. rewrite app_nil_r. unfold ComputeLeadDigitDistribution.
      destruct (make_floats (Int.sub base 1)); cbn [bind]; try reflexivity.
      unfold kept. now rewrite tally_filter.
Qed.
End Strings.

Lemma FromStrings_is_numeric_builder_witness :
  ComputeLeadDigitDistributionFromStrings oor_amd64
    (fun s => if String.eqb s "25" then (of_int 25, true) else (zero, false))
    64 ["25"; "n/a"; "25"]%string 10 =
  ComputeLeadDigitDistribution oor_amd64 64
    (parsed
       (fun s => if String.eqb s "25" then (of_int 25, true) else (zero, false))
       ["25"; "n/a"; "25"]%string) 10.
Proof.
  apply (FromStrings_is_numeric_builder
           (fun s => if String.eqb s "25" then (of_int 25, true)
                     else (zero, false))
           oor_amd64 64 ["25"; "n/a"; "25"]%string 10).
  cbn [List.length]. unfold Int.max_int. lia.
Defined.

Lemma incr_at_map (f : nat -> float64) (len : nat) : forall s j : nat,
  (j < len)%nat ->
  incr_at (map f (seq s len)) j =
  Some (map (fun i => if (i =? s + j)%nat then add (f i) one else f i)
          (seq s len)).
Proof.
  induction len as [|len IH]; intros s j Hj; [lia|].
  cbn [seq map]. destruct j as [|j]; cbn [incr_at].
  - rewrite Nat.add_0_r, Nat.eqb_refl. f_equal. f_equal.
    apply map_ext_in. intros i Hi. apply in_seq in Hi.
    destruct (Nat.eqb_spec i s); [lia|reflexivity].
  - rewrite IH by lia. f_equal.
    destruct (Nat.eqb_spec s (s + S j)); [lia|]. f_equal.
    apply map_ext. intros i. now replace (S s + j)%nat with (s + S j)%nat by lia.
Qed.

Lemma incr_counts (c : nat -> Z) (len j : nat) :
  (j < len)%nat -> 0 <= c j -> c j + 1 < 2 ^ 53 ->
  incr (map (fun i => of_int (c i)) (seq 0 len)) (Z.of_nat j) =
  Ok (map (fun i => of_int (c i + if (i =? j)%nat then 1 else 0)) (seq 0 len)).
Proof.
  intros Hj Hc Hlt. unfold incr. rewrite length_map, length_seq.
  destruct (Z.ltb_spec (Z.of_nat j) 0); [lia|].
  destruct (Z.leb_spec (Z.of_nat len) (Z.of_nat j)); [lia|]. cbn [orb].
  rewrite Nat2Z.id, (incr_at_map (fun i => of_int (c i))) by exact Hj.
  f_equal. apply map_ext. intros i. cbn [Nat.add].
  destruct (Nat.eqb_spec i j) as [->|_].
  - now apply add_one_exact.
  - now rewrite Z.add_0_r.
Qed.

Lemma to_int_of_int (oor : float64 -> Z) (z : Z) :
  0 <= z < 2 ^ 53 -> to_int oor (of_int z) = z.
Proof.
  intros Hz. destruct (Z.eq_dec z 0) as [->|Hnz]; [reflexivity|].
  destruct (of_int_exact z ltac:(lia)) as (m & e & E & _ & _ & Ht).
  unfold to_int. rewrite E, Ht.
  assert (Int.in_rangeb z = true) as ->; [|reflexivity].
  apply in_rangeb_spec. unfold Int.in_range. rewrite max_int_value, min_int_value.
  change (2 ^ 53) with 9007199254740992 in Hz. lia.
Qed.

Section Counting.
Variable oor : float64 -> Z.
Variable fuel : nat.
Variable base : Z.
Hypothesis base_range : 2 <= base < 2 ^ 61.
Hypothesis enough_fuel : (1074 <= fuel)%nat.

Lemma kept_count_cons (v : float64) (values : list float64) :
  kept_count (v :: values) =
  (if usable v then 1 else 0) + kept_count values.
Proof.
  unfold kept_count. cbn [filter]. destruct (usable v); cbn [List.length]; lia.
Qed.

Lemma digit_count_cons (v : float64) (values : list float64) (d : Z) :
  digit_count oor fuel base (v :: values) d =
  (if usable v && returned (LeadDigit oor fuel v base) d then 1 else 0) +
  digit_count oor fuel base values d.
Proof.
  unfold digit_count. cbn [filter].
  destruct (usable v && returned (LeadDigit oor fuel v base) d);
    cbn [List.length]; lia.
Qed.

Lemma kept_count_bounds (values : list float64) :
  0 <= kept_count values <= Z.of_nat (List.length values).
Proof.
  unfold kept_count. pose proof (filter_length_le usable values). lia.
Qed.

Lemma tally_counts (values : list float64) : forall (c : nat -> Z) (n0 : Z),
  Forall measurable values ->
  (forall i : nat, 0 <= c i <= n0) ->
  n0 + Z.of_nat (List.length values) < 2 ^ 53 ->
  tally oor fuel base values
    (of_int n0, map (fun i => of_int (c i)) (seq 0 (Z.to_nat (base - 1)))) =
  Ok (of_int (n0 + kept_count values),
      map (fun i => of_int (c i + digit_count oor fuel base values (Z.of_nat i + 1)))
        (seq 0 (Z.to_nat (base - 1)))).
Proof.
  induction values as [|v values IH]; intros c n0 Hvs Hc Hn.
  - cbn [tally]. unfold kept_count, digit_count. cbn [filter List.length].
    change (Z.of_nat 0) with 0. rewrite Z.add_0_r. f_equal. f_equal.
    apply map_ext. intros i. now rewrite Z.add_0_r.
  - inversion Hvs as [|? ? Hv Hvs']; subst. cbn [tally List.length] in *.
    rewrite kept_count_cons.
    destruct (usable v) eqn:Hu.
    + destruct (Hv Hu) as [Hvalid Hfit].
      destruct (LeadDigit_in_domain oor fuel v base base_range enough_fuel
                  Hvalid (usable_finite v Hu Hfit) Hfit) as (d & E & Hd).
      rewrite E. cbn [bind].
      rewrite sub_in_range
        by (change (2 ^ 61) with 2305843009213693952 in base_range;
            clear IH; int_range).
      pose proof (Hc 0%nat) as Hc0.
      replace (d - 1) with (Z.of_nat (Z.to_nat (d - 1))) by lia.
      pose proof (Hc (Z.to_nat (d - 1))) as Hcj.
      rewrite incr_counts by lia. cbn [bind].
      rewrite add_one_exact by lia.
      rewrite (IH (fun i => c i + if (i =? Z.to_nat (d - 1))%nat then 1 else 0)
                 (n0 + 1)); try assumption.
      * f_equal. f_equal; [f_equal; lia|].
        apply map_ext. intros i. f_equal. rewrite digit_count_cons, Hu, E.
        cbn [andb returned].
        destruct (Nat.eqb_spec i (Z.to_nat (d - 1)));
          destruct (Z.eqb_spec d (Z.of_nat i + 1)); lia.
      * intros i. specialize (Hc i).
        destruct (i =? Z.to_nat (d - 1))%nat; lia.
      * lia.
    + rewrite IH by (try assumption; lia). f_equal. f_equal.
      apply map_ext. intros i. f_equal. rewrite digit_count_cons, Hu.
      reflexivity.
Qed.

(** X15: for every base in [2, 2^61) and every input of fewer than 2^53
    samples whose kept samples are finite and below 2^63 in magnitude, the
    builder returns the number of kept samples as its count, and as entry
    [d-1] the float64 quotient of the number of kept samples with lead digit
    [d] by that count: the tallies are exact in float64. *)
Theorem builder_gives_relative_frequencies (values : list float64) :
  Forall measurable values ->
  Z.of_nat (List.length values) < 2 ^ 53 ->
  ComputeLeadDigitDistribution oor fuel values base =
    Ok (map (fun i =>
               div (of_int (digit_count oor fuel base values (Z.of_nat i + 1)))
                   (of_int (kept_count values)))
          (seq 0 (Z.to_nat (base - 1))),
        kept_count values).
Proof.
  intros Hvs Hlen. unfold ComputeLeadDigitDistribution, make_floats.
  rewrite sub_in_range
    by (change (2 ^ 61) with 2305843009213693952 in base_range; int_range).
  destruct (Z.ltb_spec (base - 1) 0); [lia|]. cbn [bind].
  assert (repeat zero (Z.to_nat (base - 1)) =
          map (fun _ : nat => of_int 0) (seq 0 (Z.to_nat (base - 1)))) as ->.
  { generalize 0%nat. induction (Z.to_nat (base - 1)) as [|n IHn]; intros s;
      cbn [repeat seq map]; [reflexivity|]. f_equal. apply IHn. }
  change zero with (of_int 0).
  rewrite (tally_counts values (fun _ => 0) 0) by (try assumption; lia).
  cbn [bind]. pose proof (kept_count_bounds values).
  rewrite Z.add_0_l, to_int_of_int by lia. f_equal. f_equal.
  rewrite map_map. reflexivity.
Qed.

End Counting.

Lemma builder_gives_relative_frequencies_witness :
  ComputeLeadDigitDistribution oor_amd64 1074 [f0_002; zero; of_int 25] 10 =
    Ok (map (fun i =>
               div (of_int (digit_count oor_amd64 1074 10
                              [f0_002; zero; of_int 25] (Z.of_nat i + 1)))
                   (of_int (kept_count [f0_002; zero; of_int 25])))
          (seq 0 (Z.to_nat (10 - 1))),
        kept_count [f0_002; zero; of_int 25]).
Proof.
  apply (builder_gives_relative_frequencies oor_amd64 1074 10).
  - split; [lia|vm_compute; reflexivity].
  - lia.
  - repeat constructor; intros Hu; vm_compute in Hu; try discriminate Hu;
      split; vm_compute; (reflexivity || discriminate).
  - vm_compute. reflexivity.
Defined.

(** ** [LeadDigit] at zero, in base 1, and on values of 1 or more *)

Lemma of_int_not_special (base : Z) :
  Int.in_range base ->
  match of_int base with
  | S754_zero _ | S754_finite _ _ _ => True
  | _ => False
  end.
Proof.
  intros Hb. unfold of_int, binary_normalize.
  assert (forall (s : bool) (p : positive), Z.pos p <= 2 ^ 63 ->
    match binary_round prec emax s p 0 with
    | S754_zero _ | S754_finite _ _ _ => True
    | _ => False
    end) as Hround.
  { intros s p Hp.
    assert (0 <= Z.log2 (Z.pos p) <= 63) as Hlog.
    { split; [apply Z.log2_nonneg|]. rewrite <- (Z.log2_pow2 63) by lia.
      apply Z.log2_le_mono. exact Hp. }
    assert (mag p 0 = Z.log2 (Z.pos p) + 1) as Hmag
      by (unfold mag; rewrite digits2_log2; lia).
    destruct (binary_round_spec s p 0 ltac:(lia)) as (m & e & Hc & Hm & E).
    rewrite E. apply canonical_eq in Hc.
    destruct (Z.leb_spec e (emax - prec)) as [_|Hbig]; [exact I|].
    unfold emax, prec in Hbig. lia. }
  revert Hb. unfold Int.in_range. rewrite max_int_value, min_int_value.
  change (2 ^ 63) with 9223372036854775808 in Hround.
  intros Hb. destruct base as [|p|p]; [exact I|apply Hround; lia..].
Qed.

Lemma mul_up_zero_never_returns (b : float64) :
  match b with S754_zero _ | S754_finite _ _ _ => True | _ => False end ->
  forall (fuel : nat) (s : bool), mul_up fuel b (S754_zero s) = OutOfFuel.
Proof.
  intros Hb. induction fuel as [|fuel IH]; intros s; cbn [mul_up];
    change (ltb (S754_zero s) one) with true; cbv iota; [reflexivity|].
  destruct b as [sb| | |sb mb eb]; try contradiction; apply IH.
Qed.

(** X16: [LeadDigit] of zero (of either sign) never returns, whatever the
    base: the multiply-up loop keeps the value at zero. *)
Theorem LeadDigit_zero_never_returns (oor : float64 -> Z) (fuel : nat)
    (s : bool) (base : Z) :
  Int.in_range base -> LeadDigit oor fuel (S754_zero s) base = OutOfFuel.
Proof.
  intros Hb. unfold LeadDigit.
  change (ltb (S754_zero s) zero) with false. cbv iota zeta.
  change (ltb (S754_zero s) one) with true. cbv iota.
  rewrite mul_up_zero_never_returns; [reflexivity|].
  now apply of_int_not_special.
Qed.

Lemma mul_one (m : positive) (e : Z) :
  valid (S754_finite false m e) ->
  mul one (S754_finite false m e) = S754_finite false m e.
Proof.
  unfold valid, valid_binary, bounded. rewrite andb_true_iff, Z.leb_le.
  intros [Hc He]. unfold mul, one, SFmul. cbn [xorb].
  rewrite Pos2Z.inj_mul, Z.mul_comm, Z.add_comm.
  change (Z.pos 4503599627370496) with (2 ^ 52).
  change (e + -52) with (e - 52).
  apply round_exact_shift; [exact Hc|exact He|lia].
Qed.

Lemma mul_up_one_never_returns (m : positive) (e : Z) :
  valid (S754_finite false m e) ->
  ltb (S754_finite false m e) one = true ->
  forall fuel : nat, mul_up fuel one (S754_finite false m e) = OutOfFuel.
Proof.
  intros Hv Hlt. induction fuel as [|fuel IH]; cbn [mul_up]; rewrite Hlt;
    [reflexivity|]. now rewrite mul_one.
Qed.

Lemma div_down_one_never_returns (resid : Z) :
  1 <= resid <= Int.max_int ->
  forall fuel : nat, div_down fuel 1 resid = OutOfFuel.
Proof.
  intros Hr. induction fuel as [|fuel IH]; cbn [div_down];
    destruct (Z.leb_spec 1 resid); try lia; [reflexivity|].
  unfold Int.quot. cbn [Z.eqb bind]. rewrite Z.quot_1_r.
  rewrite wrap_in_range by (revert Hr; clear; intros; int_range). exact IH.
Qed.

(** X17: in base 1, [LeadDigit] never returns on a finite nonzero value
    below 2^63 in magnitude: neither loop makes progress. *)
Theorem LeadDigit_base_one_never_returns (oor : float64 -> Z) (fuel : nat)
    (n : float64) :
  valid n -> finite_nonzero n -> fits_int n ->
  LeadDigit oor fuel n 1 = OutOfFuel.
Proof.
  intros Hv Hn Hfit. destruct n as [| | |s m e]; try contradiction.
  cbn [fits_int] in Hfit.
  assert (valid (S754_finite false m e)) as Hv' by exact Hv.
  destruct (valid_canonical _ _ _ Hv') as [Hc _].
  unfold LeadDigit.
  assert ((if ltb (S754_finite s m e) zero then neg (S754_finite s m e)
           else S754_finite s m e) = S754_finite false m e) as ->
    by (destruct s; reflexivity).
  cbv zeta. change (of_int 1) with one.
  destruct (ltb (S754_finite false m e) one) eqn:Hlt.
  - now rewrite mul_up_one_never_returns.
  - cbn [bind]. apply ltb_one_mag in Hlt; [|exact Hc].
    apply div_down_one_never_returns. apply to_int_small. lia.
Qed.

(** The divide-down loop leaves the leading digit of a positive [int]. *)
Lemma div_down_leading (base : Z) :
  2 <= base <= Int.max_int ->
  forall (fuel : nat) (resid : Z),
    1 <= resid <= Int.max_int -> resid < 2 ^ Z.of_nat fuel ->
    exists d : Z,
      div_down fuel base resid = Ok d /\ leading_digit base resid d.
Proof.
  intros Hb. induction fuel as [|fuel IH]; intros resid Hr Hlt; cbn [div_down].
  - change (2 ^ Z.of_nat 0) with 1 in Hlt. lia.
  - destruct (Z.leb_spec base resid) as [Hge|Hlt'].
    + unfold Int.quot. destruct (Z.eqb_spec base 0); [lia|]. cbn [bind].
      rewrite Z.quot_div_nonneg by lia.
      rewrite Nat2Z.inj_succ, Z.pow_succ_r in Hlt by lia.
      pose proof (Z.div_mod resid base ltac:(lia)) as Hdm.
      pose proof (Z.mod_pos_bound resid base ltac:(lia)) as Hmod.
      set (q := resid / base) in *.
      assert (1 <= q) by nia.
      assert (q <= resid) by nia.
      assert (q < 2 ^ Z.of_nat fuel) by nia.
      assert (Int.in_range q) as Hq by (revert Hr; clear - H H0; intros; int_range).
      rewrite wrap_in_range by exact Hq.
      destruct (IH q ltac:(lia) ltac:(lia)) as (d & E & Hd & k & Hk & Hlo & Hhi).
      exists d. split; [exact E|]. split; [exact Hd|].
      exists (k + 1). split; [lia|]. rewrite Z.pow_add_r, Z.pow_1_r by lia.
      split; nia.
    + exists resid. split; [reflexivity|]. split; [lia|].
      exists 0. rewrite Z.pow_0_r. lia.
Qed.

(** X18: for every base >= 2 and every finite [n] with [1 <= |n| < 2^63],
    [LeadDigit] returns the leading base-[base] digit of the integer part
    [z] of [|n|]: the [d] in [1, base-1] with [d * base^k <= z < (d+1) *
    base^k] for some [k]. *)
Theorem LeadDigit_of_integer_part (oor : float64 -> Z) (fuel : nat)
    (n : float64) (base : Z) :
  2 <= base <= Int.max_int -> (63 <= fuel)%nat ->
  valid n -> finite_nonzero n -> fits_int n -> ltb (fabs n) one = false ->
  exists z d : Z,
    trunc (fabs n) = Some z /\ 1 <= z /\
    LeadDigit oor fuel n base = Ok d /\ leading_digit base z d.
Proof.
  intros Hb Hfuel Hv Hn Hfit Hge. destruct n as [| | |s m e]; try contradiction.
  cbn [fits_int] in Hfit. cbn [fabs SFabs] in *.
  assert (valid (S754_finite false m e)) as Hv' by exact Hv.
  destruct (valid_canonical _ _ _ Hv') as [Hc _].
  pose proof Hge as Hmag. apply ltb_one_mag in Hmag; [|exact Hc].
  destruct (trunc_bounds m e Hmag) as (z & Ez & Hz).
  pose proof (to_int_small oor m e ltac:(lia)) as Hsmall.
  assert (to_int oor (S754_finite false m e) = z) as Hto.
  { unfold to_int in *. rewrite Ez in *.
    destruct (Int.in_rangeb z) eqn:Hin; [reflexivity|].
    exfalso. apply Bool.not_true_iff_false in Hin. apply Hin.
    apply in_rangeb_spec.
    assert (2 ^ 0 <= 2 ^ (mag m e - 1)) by (apply Z.pow_le_mono_r; lia).
    assert (2 ^ mag m e <= 2 ^ 63) by (apply Z.pow_le_mono_r; lia).
    change (2 ^ 0) with 1 in *.
    change (2 ^ 63) with 9223372036854775808 in *.
    unfold Int.in_range. rewrite max_int_value, min_int_value. lia. }
  exists z. rewrite Hto in Hsmall.
  destruct (div_down_leading base Hb fuel z Hsmall) as (d & E & Hd).
  - pose proof (pow2_le_fuel fuel 63 ltac:(lia)).
    rewrite max_int_value in Hsmall.
    change (2 ^ 63) with 9223372036854775808 in *. lia.
  - exists d. split; [exact Ez|]. split; [lia|]. split; [|exact Hd].
    unfold LeadDigit.
    assert ((if ltb (S754_finite s m e) zero then neg (S754_finite s m e)
             else S754_finite s m e) = S754_finite false m e) as ->
      by (destruct s; reflexivity).
    cbv zeta. rewrite Hge. cbn [bind]. rewrite Hto. exact E.
Qed.

Lemma LeadDigit_zero_never_returns_witness :
  LeadDigit oor_amd64 1074 (S754_zero true) 10 = OutOfFuel.
Proof.
  apply (LeadDigit_zero_never_returns oor_amd64 1074 true 10).
  unfold Int.in_range, Int.min_int, Int.max_int. lia.
Defined.

Lemma LeadDigit_base_one_never_returns_witness :
  LeadDigit oor_amd64 1074 (of_int 25) 1 = OutOfFuel.
Proof.
  apply (LeadDigit_base_one_never_returns oor_amd64 1074 (of_int 25)).
  - vm_compute. reflexivity.
  - exact I.
  - vm_compute. discriminate.
Defined.

Lemma LeadDigit_of_integer_part_witness :
  exists z d : Z,
    trunc (fabs (neg (of_int 25))) = Some z /\ 1 <= z /\
    LeadDigit oor_amd64 63 (neg (of_int 25)) 10 = Ok d /\
    leading_digit 10 z d.
Proof.
  apply (LeadDigit_of_integer_part oor_amd64 63 (neg (of_int 25)) 10).
  - unfold Int.max_int. lia.
  - lia.
  - vm_compute. reflexivity.
  - exact I.
  - vm_compute. discriminate.
  - vm_compute. reflexivity.
Defined.

End DigitsFacts.
